(** * Verification of [src/precompile.c]

    A shallow embedding of the precompilation driver of the Julia runtime:
    the union-splitting enumerator ([_compile_all_union],
    [_compile_all_tvar_union]), the specialization selector
    ([jl_compile_all_defs], [precompile_enq_specialization_],
    [precompile_enq_all_specializations__], [jl_precompile_],
    [jl_precompile], [jl_precompile_worklist]), the source-text writer
    ([write_srctext]) and the parts of [jl_write_compiler_output] that
    rebuild the module initialization order, select the methods to compile
    and patch the checksum header.

    Part I holds the program: the data the C code works on, the functions
    that only read that data, and, in [Precompile], the functions that call
    into the rest of the runtime. The runtime functions that are not
    determined by the data (type instantiation, the method tables, the file
    system, the checksum) are variables of the section [WithRuntime]; a
    loop that the C code leaves by a condition on its counters takes the
    number of passes allowed and returns [None] when they do not suffice.
    Part II holds the properties, and ends with their instances at sample
    inputs. *)

From stdpp Require Import base option list numbers strings.
From Stdlib Require Import ZArith Lia.

Set Default Proof Using "Type".
Set Warnings "-register-all".
Open Scope Z_scope.
Open Scope nat_scope.

(** * Part I: the program *)

(** ** Julia type values ([julia.h]) *)

Module JlTypes.

(** Modelled from the spec: the declarations of [julia.h] are not among the
    sources. The [jl_typename_t] objects the code compares against, and
    user names. *)
Inductive jl_typename_t :=
| jl_type_typename        (* the name of [Type{T}] *)
| jl_tuple_typename       (* the name of [Tuple{...}] *)
| jl_datatype_typename    (* the name of the kind [DataType] *)
| jl_uniontype_typename   (* the name of the kind [Union] *)
| jl_unionall_typename    (* the name of the kind [UnionAll] *)
| jl_typeofbottom_typename (* the name of the kind [Core.TypeofBottom] *)
| jl_user_typename (n : string).

(** Modelled from the spec: the flags of a [jl_datatype_t] that
    [precompile.c] and the inline predicates of [julia.h] read. *)
Record jl_datatype_flags := {
  hasfreetypevars : bool;
  isconcretetype : bool;
  isdispatchtuple : bool;
  has_concrete_subtype : bool
}.

(** Modelled from the spec: a [jl_value_t*] that denotes a type, a tagged
    variant of concrete or abstract datatypes, unions, type variables with
    their bounds, and [UnionAll] quantifiers. [jl_NULL] is the null pointer
    ([jl_nth_union_component] returns it out of range). *)
Inductive jl_value_t :=
| jl_NULL
| jl_bottom_type
| jl_datatype (name : jl_typename_t) (parameters : list jl_value_t)
              (flags : jl_datatype_flags)
| jl_uniontype (a b : jl_value_t)
| jl_tvar (name : string) (lb ub : jl_value_t)
| jl_unionall (var : jl_value_t) (body : jl_value_t)
| jl_vararg (T : jl_value_t).

Definition jl_is_uniontype (v : jl_value_t) : bool :=
  match v with jl_uniontype _ _ => true | _ => false end.

Definition jl_is_datatype (v : jl_value_t) : bool :=
  match v with jl_datatype _ _ _ => true | _ => false end.

Definition jl_is_unionall (v : jl_value_t) : bool :=
  match v with jl_unionall _ _ => true | _ => false end.

Definition jl_is_typevar (v : jl_value_t) : bool :=
  match v with jl_tvar _ _ _ => true | _ => false end.

(** [ty == jl_bottom_type] *)
Definition is_bottom_type (v : jl_value_t) : bool :=
  match v with jl_bottom_type => true | _ => false end.

Definition typename_eqb (x y : jl_typename_t) : bool :=
  match x, y with
  | jl_type_typename, jl_type_typename
  | jl_tuple_typename, jl_tuple_typename
  | jl_datatype_typename, jl_datatype_typename
  | jl_uniontype_typename, jl_uniontype_typename
  | jl_unionall_typename, jl_unionall_typename
  | jl_typeofbottom_typename, jl_typeofbottom_typename => true
  | jl_user_typename n, jl_user_typename n' => bool_decide (n = n')
  | _, _ => false
  end.

(** [((jl_datatype_t* )ty)->name]; the accessors are read only under
    [jl_is_datatype]. *)
Definition datatype_name (v : jl_value_t) : option jl_typename_t :=
  match v with jl_datatype n _ _ => Some n | _ => None end.

Definition datatype_flags (v : jl_value_t) : option jl_datatype_flags :=
  match v with jl_datatype _ _ f => Some f | _ => None end.

(** Modelled from the spec: [jl_is_kind] ([julia.h]) is not among the
    sources. The value is one of the four kind objects [Union],
    [DataType], [UnionAll], [Core.TypeofBottom]; these carry no parameters
    and are identified by their type name. *)
Definition jl_is_kind (v : jl_value_t) : bool :=
  match v with
  | jl_datatype jl_uniontype_typename [] _
  | jl_datatype jl_datatype_typename [] _
  | jl_datatype jl_unionall_typename [] _
  | jl_datatype jl_typeofbottom_typename [] _ => true
  | _ => false
  end.

(** Modelled from the spec: [jl_is_concrete_type(v)] ([julia.h]) is
    [jl_is_datatype(v) && ((jl_datatype_t* )v)->isconcretetype]. *)
Definition jl_is_concrete_type (v : jl_value_t) : bool :=
  match v with jl_datatype _ _ f => isconcretetype f | _ => false end.

(** Modelled from the spec: [jl_is_dispatch_tupletype(v)] ([julia.h]) is
    [jl_is_datatype(v) && ((jl_datatype_t* )v)->isdispatchtuple]. *)
Definition jl_is_dispatch_tupletype (v : jl_value_t) : bool :=
  match v with jl_datatype _ _ f => isdispatchtuple f | _ => false end.

(** Modelled from the spec: [jl_has_free_typevars] ([jltypes.c]) on a
    datatype returns the stored flag; [precompile.c] calls it only under
    [jl_is_datatype]. A type variable on its own is free. *)
Definition jl_has_free_typevars (v : jl_value_t) : bool :=
  match v with
  | jl_datatype _ _ f => hasfreetypevars f
  | jl_tvar _ _ _ => true
  | _ => false
  end.

(** Modelled from the spec: [jl_unwrap_unionall] ([jltypes.c]) strips the
    leading [UnionAll] wrappers. *)
Fixpoint jl_unwrap_unionall (v : jl_value_t) : jl_value_t :=
  match v with
  | jl_unionall _ body => jl_unwrap_unionall body
  | _ => v
  end.

(** Modelled from the spec: [jl_rewrap_unionall(t, u)] ([jltypes.c]) wraps
    [t] in the [UnionAll] wrappers of [u]. *)
Fixpoint jl_rewrap_unionall (t u : jl_value_t) : jl_value_t :=
  match u with
  | jl_unionall var body => jl_unionall var (jl_rewrap_unionall t body)
  | _ => t
  end.

(** Modelled from the spec: [jl_subtype_env_size] ([subtype.c]) is the
    number of leading [UnionAll] wrappers. *)
Fixpoint jl_subtype_env_size (v : jl_value_t) : nat :=
  match v with
  | jl_unionall _ body => S (jl_subtype_env_size body)
  | _ => 0
  end.

(** Modelled from the spec: [jl_has_concrete_subtype] ([jltypes.c]) is not
    among the sources. The bottom type has a concrete subtype; after
    unwrapping, a [Vararg] is replaced by its element type, anything that is
    not a datatype has one, a datatype answers with its stored flag. *)
Definition jl_has_concrete_subtype (typ : jl_value_t) : bool :=
  if is_bottom_type typ then true
  else
    let typ := jl_unwrap_unionall typ in
    let typ := match typ with jl_vararg T => T | _ => typ end in
    match typ with
    | jl_datatype _ _ f => has_concrete_subtype f
    | _ => true
    end.

(** Modelled from the spec: [jl_count_union_components] and
    [jl_nth_union_component] ([jltypes.c]) are not among the sources. The
    components of a nested union, left to right: anything that is not a
    [Union] is one component. *)
Fixpoint union_components (v : jl_value_t) : list jl_value_t :=
  match v with
  | jl_uniontype a b => union_components a ++ union_components b
  | _ => [v]
  end.

Definition jl_count_union_components (v : jl_value_t) : nat :=
  length (union_components v).

Definition jl_nth_union_component (v : jl_value_t) (i : nat) : jl_value_t :=
  default jl_NULL (union_components v !! i).

(** [sigbody->parameters]: the parameter vector of a tuple type. *)
Definition parameters_of (v : jl_value_t) : list jl_value_t :=
  match v with jl_datatype _ ps _ => ps | _ => [] end.

(** [tv->ub], [tv->lb], [tv->name] of a [jl_tvar_t]. *)
Definition tvar_ub (tv : jl_value_t) : jl_value_t :=
  match tv with jl_tvar _ _ ub => ub | _ => jl_NULL end.
Definition tvar_lb (tv : jl_value_t) : jl_value_t :=
  match tv with jl_tvar _ lb _ => lb | _ => jl_NULL end.
Definition tvar_name (tv : jl_value_t) : string :=
  match tv with jl_tvar n _ _ => n | _ => EmptyString end.

End JlTypes.

(** ** Mixed-radix counters

    Both enumeration loops of [precompile.c] keep an [int idx[]] array that
    they advance like an odometer. [counter_step] is that step on the digits
    alone: with a pending increment, a digit that reaches its radix falls
    back to zero and the increment moves on, otherwise the digit is bumped
    and the increment is consumed. *)

Module MixedRadix.

Fixpoint counter_step (radices digits : list nat) (incr : bool)
  : list nat * bool :=
  match radices, digits with
  | l :: rs, j :: ds =>
      let '(d, c) :=
        if incr then (if S j =? l then (0, true) else (S j, false))
        else (j, false) in
      let '(ds', c') := counter_step rs ds c in
      (d :: ds', c')
  | _, _ => (digits, incr)
  end.

(** The number a digit vector denotes, least significant digit first. *)
Fixpoint value (radices digits : list nat) : nat :=
  match radices, digits with
  | l :: rs, j :: ds => j + l * value rs ds
  | _, _ => 0
  end.

(** The digits of [v], least significant first. *)
Fixpoint to_digits (radices : list nat) (v : nat) : list nat :=
  match radices with
  | [] => []
  | l :: rs => (v mod l) :: to_digits rs (v / l)
  end.

Definition capacity (radices : list nat) : nat := foldr Nat.mul 1 radices.

(** Every digit is below its radix. *)
Definition valid (radices digits : list nat) : Prop :=
  Forall2 (fun j l => j < l) digits radices.

End MixedRadix.

(** ** The union-splitting enumerator *)

Module Enumerator.
Import JlTypes MixedRadix.

(** What one pass of the body of the loop of [_compile_all_tvar_union] did
    with the current binding of the type variables. *)
Inductive attempt :=
| InstantiationFailed                  (* JL_CATCH: goto getnext *)
| NoConcreteSubtype (sig : jl_value_t) (* !jl_has_concrete_subtype: skipped *)
| NotConcrete (sig : jl_value_t)       (* not jl_is_concrete_type: no hint *)
| Hinted (sig : jl_value_t).           (* jl_compile_hint(sig) was called *)

(** The signature handed to [jl_compile_hint], if any. *)
Definition hint_of (a : attempt) : option jl_value_t :=
  match a with Hinted sig => Some sig | _ => None end.

(** The first loop of [_compile_all_union] returns from the function on a
    parameter for which this holds. *)
Definition abandons (ty : jl_value_t) : bool :=
  if jl_is_uniontype ty then false
  else if is_bottom_type ty then true
  else
    jl_is_datatype ty && negb (jl_has_free_typevars ty) &&
    ((negb (jl_is_kind ty) && jl_is_concrete_type ty) ||
     match datatype_name ty with
     | Some n => typename_eqb n jl_type_typename
     | None => false
     end).

(** The first loop of [_compile_all_union]: [None] when the function
    returns from inside the loop, otherwise the final [count_unions]. *)
Fixpoint scan_parameters (params : list jl_value_t) (count_unions : nat)
  : option nat :=
  match params with
  | [] => Some count_unions
  | ty :: rest =>
      if jl_is_uniontype ty then scan_parameters rest (S count_unions)
      else if is_bottom_type ty then None
      else if jl_is_datatype ty && negb (jl_has_free_typevars ty) &&
              ((negb (jl_is_kind ty) && jl_is_concrete_type ty) ||
               match datatype_name ty with
               | Some n => typename_eqb n jl_type_typename
               | None => false
               end)
      then None
      else scan_parameters rest count_unions
  end.

(** The [for] loop inside [while (!incr)]: fills the parameter vector [p]
    from the current digits and advances [idx]. The entries of the C array
    [int idx[]] never exceed a count of union components, so they are
    natural numbers here. *)
Fixpoint fill_parameters (params : list jl_value_t) (idx : list nat)
    (idx_ctr : nat) (incr : bool) : list jl_value_t * list nat * bool :=
  match params with
  | [] => ([], idx, incr)
  | ty :: rest =>
      if jl_is_uniontype ty then
        let l := jl_count_union_components ty in
        let j := default 0 (idx !! idx_ctr) in
        let elt := jl_nth_union_component ty j in
        let j := S j in
        let '(idx, incr) :=
          if incr then
            (if j =? l then (<[idx_ctr := 0]> idx, true)
             else (<[idx_ctr := j]> idx, false))
          else (idx, false) in
        let '(p, idx, incr) := fill_parameters rest idx (S idx_ctr) incr in
        (elt :: p, idx, incr)
      else
        let '(p, idx, incr) := fill_parameters rest idx idx_ctr incr in
        (ty :: p, idx, incr)
  end.

(** [while (!incr)]: the parameter vectors built by the successive passes.
    [None] when [fuel] passes were not enough. *)
Fixpoint union_loop (fuel : nat) (params : list jl_value_t) (idx : list nat)
  : option (list (list jl_value_t)) :=
  match fuel with
  | 0 => None
  | S fuel =>
      let '(p, idx, incr) := fill_parameters params idx 0 true in
      if incr then Some [p]
      else rest ← union_loop fuel params idx; Some (p :: rest)
  end.

(** The first loop of [_compile_all_tvar_union]: the flat array
    [env = var_0, Union{}, var_1, Union{}, ...] and the body under the
    [UnionAll] wrappers. *)
Fixpoint tvar_env_init (sigbody : jl_value_t) : list jl_value_t * jl_value_t :=
  match sigbody with
  | jl_unionall var body =>
      let '(env, sigbody) := tvar_env_init body in
      (var :: jl_bottom_type :: env, sigbody)
  | _ => ([], sigbody)
  end.

(** The loop at the label [getnext], entered with [i] and [k] variables
    still to visit; returns the [i] it leaves with. *)
Fixpoint getnext (k i : nat) (env : list jl_value_t) (idx : list nat)
  : nat * list jl_value_t * list nat :=
  match k with
  | 0 => (i, env, idx)
  | S k =>
      let tv := default jl_NULL (env !! (2 * i)) in
      if jl_is_uniontype (tvar_ub tv) then
        let l := jl_count_union_components (tvar_ub tv) in
        let j := default 0 (idx !! i) in
        if j =? l then
          getnext k (S i) (<[2 * i + 1 := jl_bottom_type]> env) (<[i := 0]> idx)
        else
          let ty := jl_nth_union_component (tvar_ub tv) j in
          let ty := if jl_is_concrete_type ty then ty
                    else jl_tvar (tvar_name tv) (tvar_lb tv) ty in
          (i, <[2 * i + 1 := ty]> env, <[i := S j]> idx)
      else
        getnext k (S i) (<[2 * i + 1 := tv]> env) idx
  end.

(** The radix of each type variable of [env]: the variables sit at the even
    positions. *)
Fixpoint tvar_radices (env : list jl_value_t) : list nat :=
  match env with
  | tv :: _ :: env =>
      (if jl_is_uniontype (tvar_ub tv)
       then S (jl_count_union_components (tvar_ub tv)) else 1)
      :: tvar_radices env
  | _ => []
  end.

(** The alternative counts of the union-typed parameters, in order: the
    radices of the counter of [_compile_all_union]. *)
Fixpoint union_radices (params : list jl_value_t) : list nat :=
  match params with
  | [] => []
  | ty :: rest =>
      if jl_is_uniontype ty
      then jl_count_union_components ty :: union_radices rest
      else union_radices rest
  end.

(** The parameter vector that picks alternative [digits_k] of the [k]-th
    union-typed parameter and keeps every other parameter. *)
Fixpoint combination (params : list jl_value_t) (digits : list nat)
  : list jl_value_t :=
  match params with
  | [] => []
  | ty :: rest =>
      if jl_is_uniontype ty
      then jl_nth_union_component ty (default 0 (head digits))
           :: combination rest (tail digits)
      else ty :: combination rest digits
  end.


(** Every combination of alternatives, first union-typed parameter varying
    fastest. *)
Definition cross_product (params : list jl_value_t) : list (list jl_value_t) :=
  map (fun v => combination params (to_digits (union_radices params) v))
      (seq 0 (capacity (union_radices params))).


(** Passes that are enough for both loops on a signature. *)
Definition enumeration_fuel (sig : jl_value_t) : nat :=
  capacity (union_radices (parameters_of (jl_unwrap_unionall sig))) +
  capacity (tvar_radices (tvar_env_init sig).1).

(** The binding the loop at [getnext] stores for a variable when it leaves
    its counter at [digit]: [Union{}] at zero, otherwise alternative
    [digit - 1] of the upper bound, as it is when concrete and else as a new
    type variable bounded by it. *)
Definition tvar_binding (tv : jl_value_t) (digit : nat) : jl_value_t :=
  match digit with
  | 0 => jl_bottom_type
  | S j =>
      let ty := jl_nth_union_component (tvar_ub tv) j in
      if jl_is_concrete_type ty then ty
      else jl_tvar (tvar_name tv) (tvar_lb tv) ty
  end.

(** The variables of [env]: its even positions. *)
Fixpoint env_vars (env : list jl_value_t) : list jl_value_t :=
  match env with
  | tv :: _ :: env => tv :: env_vars env
  | _ => []
  end.

(** The array [env] of the pass at which the counters show [digits], for
    the variables [vars]: a variable with a union as upper bound is bound as
    its digit says; any other variable is bound to [Union{}] as long as
    every counter behind it is at zero, and to itself afterwards. *)
Fixpoint bindings_at (vars : list jl_value_t) (digits : list nat)
  : list jl_value_t :=
  match vars, digits with
  | tv :: vars, d :: digits =>
      tv :: (if jl_is_uniontype (tvar_ub tv) then tvar_binding tv d
             else if forallb (Nat.eqb 0) digits then jl_bottom_type else tv)
         :: bindings_at vars digits
  | _, _ => []
  end.

(** *** Sample types and a closed type system

    A few closed types, and the two parameters instantiated for signatures
    whose body mentions no type variable: instantiating such a body returns
    it unchanged, and a tuple of closed parameters is concrete exactly when
    all of them are. *)

Definition concrete_flags : jl_datatype_flags :=
  {| hasfreetypevars := false; isconcretetype := true;
     isdispatchtuple := false; has_concrete_subtype := true |}.

Definition abstract_flags : jl_datatype_flags :=
  {| hasfreetypevars := false; isconcretetype := false;
     isdispatchtuple := false; has_concrete_subtype := true |}.

Definition primitive (n : string) : jl_value_t :=
  jl_datatype (jl_user_typename n) [] concrete_flags.

Definition Int64 := primitive "Int64".
Definition Float64 := primitive "Float64".
Definition Integer := jl_datatype (jl_user_typename "Integer") [] abstract_flags.
Definition Any := jl_datatype (jl_user_typename "Any") [] abstract_flags.
(** The kind [DataType]: a concrete type. *)
Definition DataType := jl_datatype jl_datatype_typename [] concrete_flags.

Definition closed_tuple_flags (p : list jl_value_t) : jl_datatype_flags :=
  {| hasfreetypevars := false;
     isconcretetype := forallb jl_is_concrete_type p;
     isdispatchtuple :=
       forallb (fun ty => jl_is_concrete_type ty && negb (jl_is_kind ty)) p;
     has_concrete_subtype := true |}.

Definition instantiate_closed (body : jl_value_t) (env : list jl_value_t)
  : option jl_value_t := Some body.

Definition closed_tuple (p : list jl_value_t) : jl_value_t :=
  jl_datatype jl_tuple_typename p (closed_tuple_flags p).

(** [Union{Int64, Float64}] and [Union{Int8, Int16, Int32}] *)
Definition U2 := jl_uniontype Int64 Float64.

(** [T] with the bounds [Union{} <: T <: Any] *)
Definition T := jl_tvar "T" jl_bottom_type Any.

(** [Tuple{Int64, Union{Int64,Float64}}] *)
Definition sig_concrete_and_union := closed_tuple [Int64; U2].
(** [Tuple{DataType, Union{Int64,Float64}} where T] *)
Definition sig_kind_and_union := jl_unionall T (closed_tuple [DataType; U2]).
(** [Tuple{Integer} where T] *)
Definition sig_abstract := jl_unionall T (closed_tuple [Integer]).

(** [S] with the bounds [Union{} <: S <: Union{Int64, Integer}] *)
Definition S_union := jl_tvar "S" jl_bottom_type (jl_uniontype Int64 Integer).
(** [Tuple{DataType, S} where S<:Union{Int64, Integer} where T] *)
Definition sig_union_bound :=
  jl_unionall T (jl_unionall S_union (closed_tuple [DataType; S_union])).
(** [Tuple{DataType, Union{Int64,Float64}, S} where S<:Union{Int64, Integer}] *)
Definition sig_union_and_bound :=
  jl_unionall S_union (closed_tuple [DataType; U2; S_union]).

End Enumerator.

(** ** The specialization selector *)

Module Selector.
Import JlTypes MixedRadix Enumerator.

(** Modelled from the spec: the structures of [julia.h] below are not among
    the sources; each keeps the fields [precompile.c] reads. The [invoke]
    pointer of a code instance. *)
Inductive jl_callptr_t :=
| fptr_NULL
| jl_fptr_const_return
| fptr_native (addr : nat).

(** The [inferred] field of a code instance: [NULL], [jl_nothing], or
    inferred source with the two values [jl_ir_flag_inferred] and
    [jl_ir_inlining_cost] read from it (a [uint16_t]). *)
Inductive jl_inferred_t :=
| inferred_NULL
| inferred_nothing
| inferred_ir (jl_ir_flag_inferred : bool) (jl_ir_inlining_cost : Z).

Definition UINT16_MAX : Z := 65535.

Record jl_code_instance_t := {
  invoke : jl_callptr_t;
  inferred : jl_inferred_t;
  precompile : bool
}.

(** A method instance: its address, its [specTypes], and its [cache], the
    chain of code instances linked by [next]. *)
Record jl_method_instance_t := {
  mi_addr : nat;
  specTypes : jl_value_t;
  cache : list jl_code_instance_t
}.

(** An element of the arrays the selector fills: a method instance, or the
    two-element [svec] of a [@ccallable] declaration. *)
Inductive item :=
| item_mi (mi : jl_method_instance_t)
| item_svec (rettype sigt : jl_value_t).

Record jl_method_t := {
  name : string;
  sig : jl_value_t;
  source : bool;                                   (* [m->source != NULL] *)
  ccallable : option (jl_value_t * jl_value_t);    (* [NULL] or the svec *)
  specializations : list (option jl_method_instance_t); (* [None]: jl_nothing *)
  unspecialized : option nat                       (* address, or [NULL] *)
}.

(** A method table: the methods its [defs] typemap visits, in order. *)
Record jl_methtable_t := { defs : list jl_method_t }.

Record jl_module_t := { module_name : string }.

Definition callptr_is_const_return (p : jl_callptr_t) : bool :=
  match p with jl_fptr_const_return => true | _ => false end.

Definition callptr_is_NULL (p : jl_callptr_t) : bool :=
  match p with fptr_NULL => true | _ => false end.

(** The value of [do_compile] for one code instance. *)
Definition do_compile (codeinst : jl_code_instance_t) : bool :=
  if negb (callptr_is_const_return (invoke codeinst)) then
    match inferred codeinst with
    | inferred_ir flag cost =>
        if flag && (cost =? UINT16_MAX)%Z then true
        else if negb (callptr_is_NULL (invoke codeinst)) || precompile codeinst
             then true else false
    | _ =>
        if negb (callptr_is_NULL (invoke codeinst)) || precompile codeinst
        then true else false
    end
  else false.

(** The [while (codeinst)] loop: whether some code instance of the chain
    makes the function push. *)
Fixpoint enq_cache (codeinst : list jl_code_instance_t) : bool :=
  match codeinst with
  | [] => false
  | c :: next => if do_compile c then true else enq_cache next
  end.

Definition precompile_enq_specialization_ (mi : jl_method_instance_t)
    (closure : list item) : list item :=
  if enq_cache (cache mi) then closure ++ [item_mi mi] else closure.

(** The test that sends a method to the forced branch of
    [precompile_enq_all_specializations__]. *)
Definition is_forced (m : jl_method_t) : bool :=
  (bool_decide (name m = "__init__"%string) || bool_decide (is_Some (ccallable m)))
  && jl_is_dispatch_tupletype (sig m).

(** The entries [precompile_enq_specialization_] accepts. *)
Definition entry_selected (c : jl_code_instance_t) : Prop :=
  invoke c <> jl_fptr_const_return /\
  ((exists cost, inferred c = inferred_ir true cost /\ cost = UINT16_MAX) \/
   invoke c <> fptr_NULL \/
   precompile c = true).

(** *** Sample methods and a small runtime *)

Definition typeof_init := primitive "typeof(__init__)".
Definition typeof_f := primitive "typeof(f)".

(** A fresh method instance for a signature, as
    [jl_specializations_get_linfo] creates one. *)
Definition fresh_linfo (m : jl_method_t) (type : jl_value_t)
  : jl_method_instance_t :=
  {| mi_addr := 0; specTypes := type; cache := [] |}.

(** A fresh unspecialized instance of a method with source. *)
Definition fresh_unspecialized (m : jl_method_t) : option jl_method_instance_t :=
  if source m then Some {| mi_addr := 1; specTypes := sig m; cache := [] |}
  else None.

(** A signature is compileable for its method when it is a dispatch
    tuple. *)
Definition dispatch_tuple_is_compileable (type : jl_value_t) (m : jl_method_t)
  : bool := jl_is_dispatch_tupletype type.

(** [__init__()]: signature [Tuple{typeof(__init__)}], never run. *)
Definition init_method : jl_method_t :=
  {| name := "__init__"; sig := closed_tuple [typeof_init]; source := true;
     ccallable := None; specializations := []; unspecialized := None |}.

(** [__init__(args...)]: signature [Tuple{typeof(__init__), Vararg{Any}}],
    never run. *)
Definition init_vararg_method : jl_method_t :=
  {| name := "__init__";
     sig := closed_tuple [typeof_init; jl_vararg Any];
     source := true; ccallable := None; specializations := [];
     unspecialized := None |}.

(** [f(::Int64)]: signature [Tuple{typeof(f), Int64}], no specialization
    yet. *)
Definition f_method : jl_method_t :=
  {| name := "f"; sig := closed_tuple [typeof_f; Int64]; source := true;
     ccallable := None; specializations := []; unspecialized := None |}.

(** The specialization of [f(::Int64)] for its own signature, compiled. *)
Definition mi_f_compiled : jl_method_instance_t :=
  {| mi_addr := 3; specTypes := closed_tuple [typeof_f; Int64];
     cache := [ {| invoke := fptr_native 2048; inferred := inferred_nothing;
                   precompile := false |} ] |}.

(** [f(::Int64)] once its signature has been hinted. *)
Definition f_method_hinted : jl_method_t :=
  {| name := "f"; sig := closed_tuple [typeof_f; Int64]; source := true;
     ccallable := None; specializations := [Some mi_f_compiled];
     unspecialized := None |}.

(** A specialization whose newest code instance returns a constant and
    whose older one has native code. *)
Definition mi_two_entries : jl_method_instance_t :=
  {| mi_addr := 2; specTypes := closed_tuple [typeof_f; Integer];
     cache := [ {| invoke := jl_fptr_const_return; inferred := inferred_NULL;
                   precompile := true |};
                {| invoke := fptr_native 4096; inferred := inferred_nothing;
                   precompile := false |} ] |}.

(** [f(::Integer)] with that specialization. *)
Definition f_generic_method : jl_method_t :=
  {| name := "f"; sig := closed_tuple [typeof_f; Integer]; source := true;
     ccallable := None; specializations := [None; Some mi_two_entries];
     unspecialized := None |}.

(** [g(::DataType, ::Union{Int64,Float64}) where T], with source, whose
    unspecialized instance is at address 1. *)
Definition g_method : jl_method_t :=
  {| name := "g"; sig := sig_kind_and_union; source := true;
     ccallable := None; specializations := []; unspecialized := Some 1 |}.

(** [h(::Integer)] declared [@ccallable] with return type [Int64] and
    argument signature [Tuple{Integer}]; its signature is not a dispatch
    tuple and it has no specialization. *)
Definition h_method : jl_method_t :=
  {| name := "h"; sig := closed_tuple [primitive "typeof(h)"; Integer];
     source := true;
     ccallable := Some (Int64, closed_tuple [Integer]);
     specializations := []; unspecialized := None |}.

Definition module_A : jl_module_t := {| module_name := "A" |}.

End Selector.

(** ** The image serializer: source text and checksum *)

Module Serializer.
Import Selector.

(** A byte is an integer in [0, 256). *)
Definition byte := Z.

(** Modelled from the spec: the [ios_t] memory stream ([support/ios.c]) is
    not among the sources; it is a growable buffer with a current position.
    The stream invariant is [bpos <= length buf]. *)
Record ios_t := { buf : list byte; bpos : nat }.

Definition ios_pos (s : ios_t) : nat := bpos s.

(** Modelled from the spec: [ios_seek] moves the position inside the
    buffer and leaves the stream alone when the target is beyond its
    size. *)
Definition ios_seek (s : ios_t) (pos : nat) : ios_t :=
  if decide (pos <= length (buf s)) then {| buf := buf s; bpos := pos |} else s.

Definition ios_seek_end (s : ios_t) : ios_t :=
  {| buf := buf s; bpos := length (buf s) |}.

(** The buffer with [data] written over it from offset [pos] on, growing
    at the end when [data] reaches beyond it. *)
Definition patch_at (pos : nat) (data l : list byte) : list byte :=
  take pos l ++ data ++ drop (pos + length data) l.

(** Modelled from the spec: [ios_write] copies the bytes to the current
    position, over what is there, extends the buffer when they reach beyond
    its end, and advances the position. *)
Definition ios_write (s : ios_t) (data : list byte) : ios_t :=
  {| buf := patch_at (bpos s) data (buf s); bpos := bpos s + length data |}.

(** The [n] little-endian bytes of the low [8 n] bits of [v]. *)
Fixpoint le_bytes (n : nat) (v : Z) : list byte :=
  match n with
  | 0 => []
  | S n => (v mod 256)%Z :: le_bytes n (v / 256)%Z
  end.

(** The number a little-endian byte string denotes. *)
Fixpoint le_value (bs : list byte) : Z :=
  match bs with
  | [] => 0%Z
  | b :: bs => (b + 256 * le_value bs)%Z
  end.

Definition write_int32 (s : ios_t) (v : Z) : ios_t := ios_write s (le_bytes 4 v).
Definition write_uint64 (s : ios_t) (v : Z) : ios_t := ios_write s (le_bytes 8 v).

(** The [n] bytes of [l] from offset [pos] on. *)
Definition slice (pos n : nat) (l : list byte) : list byte :=
  take n (drop pos l).

Definition read_uint64 (l : list byte) (pos : nat) : Z := le_value (slice pos 8 l).

Definition jl_main_module : jl_module_t := {| module_name := "Main" |}.

#[global] Instance jl_module_eq_dec : EqDecision jl_module_t.
Proof. solve_decision. Defined.

(** An element of [udeps]: the module and the absolute path, a Julia
    string given by its bytes. *)
Record dependency := { depmod : jl_module_t; abspath : list byte }.

(** [jl_string_data] as a C string: the bytes before the first NUL. *)
Fixpoint c_string (str : list byte) : list byte :=
  match str with
  | [] => []
  | c :: str => if (c =? 0)%Z then [] else c :: c_string str
  end.

(** One record of the source-text block. *)
Definition srctext_record (path text : list byte) : list byte :=
  le_bytes 4 (Z.of_nat (length path)) ++ path ++
  le_bytes 8 (Z.of_nat (length text)) ++ text.

(** The block for a list of files: the records, then [int32 0]. *)
Definition srctext_block (files : list (list byte * list byte)) : list byte :=
  concat (map (fun pt => srctext_record pt.1 pt.2) files) ++ le_bytes 4 0.

(** Modelled from the spec: the reader of the source-text block is not in
    [precompile.c]. It reads records [int32 path-length][path][uint64
    length][text] from [pos] on until a path length of zero, and fails on a
    truncated block. It returns the files and the offset it stopped at. *)
Fixpoint read_srctext_from (fuel : nat) (l : list byte) (pos : nat)
  : option (list (list byte * list byte) * nat) :=
  match fuel with
  | 0 => None
  | S fuel =>
      if decide (pos + 4 <= length l) then
        let pathlen := Z.to_nat (le_value (slice pos 4 l)) in
        if decide (pathlen = 0) then Some ([], pos + 4)
        else if decide (pos + 4 + pathlen + 8 <= length l) then
          let path := slice (pos + 4) pathlen l in
          let textlen := Z.to_nat (le_value (slice (pos + 4 + pathlen) 8 l)) in
          if decide (pos + 4 + pathlen + 8 + textlen <= length l) then
            let text := slice (pos + 4 + pathlen + 8) textlen l in
            match read_srctext_from fuel l (pos + 4 + pathlen + 8 + textlen) with
            | Some (files, stop) => Some ((path, text) :: files, stop)
            | None => None
            end
          else None
        else None
      else None
  end.

Definition read_srctext (l : list byte) (pos : nat)
  : option (list (list byte * list byte) * nat) :=
  read_srctext_from (length l) l pos.

(** *** A sample stream and file system *)

(** The path [/a]; only this file can be opened, and holds [jl]. *)
Definition path_a : list byte := [47; 97]%Z.
Definition path_b : list byte := [47; 98]%Z.

Definition one_file (path : list byte) : option (list byte) :=
  if decide (path = path_a) then Some [106; 108]%Z else None.

Definition module_B : jl_module_t := {| module_name := "B" |}.

(** A dependency of [Main], one with an empty path, one that cannot be
    opened, and one that is embedded. *)
Definition sample_udeps : list dependency :=
  [ {| depmod := jl_main_module; abspath := path_a |};
    {| depmod := module_B; abspath := [] |};
    {| depmod := module_B; abspath := path_b |};
    {| depmod := module_B; abspath := path_a |} ].

(** A stream of 24 bytes positioned at its end: the checksum field at 0,
    the source-text field at 8, the data from 16 on. *)
Definition sample_stream : ios_t :=
  {| buf := replicate 16 0%Z ++ [1; 2; 3; 4; 5; 6; 7; 8]%Z; bpos := 24 |}.

(** A stand-in for the checksum: the sum of the first [len] bytes at
    [data]. *)
Definition byte_sum (crc : Z) (data : list byte) (len : Z) : Z :=
  foldr Z.add crc (take (Z.to_nat len) data).

End Serializer.

(** ** The output driver: the module initialization order *)

Module Driver.
Import JlTypes Selector.

(** Modelled from the spec: [jl_options_t] ([julia.h]) is not among the
    sources. The output options of [jl_options]: whether each file name is
    set. *)
Record jl_options_t := {
  outputo : bool;
  outputbc : bool;
  outputunoptbc : bool;
  outputji : bool;
  outputasm : bool;
  incremental : bool
}.

Definition jl_generating_output (jl_options : jl_options_t) : bool :=
  outputo jl_options || outputbc jl_options || outputunoptbc jl_options ||
  outputji jl_options || outputasm jl_options.

(** Modelled from the spec: the values of [jl_get_module_compile]
    ([julia.h]). *)
Inductive compile_setting :=
| JL_OPTIONS_COMPILE_OFF
| JL_OPTIONS_COMPILE_ON
| JL_OPTIONS_COMPILE_ALL
| JL_OPTIONS_COMPILE_MIN.

#[global] Instance compile_setting_eq_dec : EqDecision compile_setting.
Proof. solve_decision. Defined.

(** The value of a global: a type, or another value given by its type. *)
Inductive jl_global :=
| global_type (t : jl_value_t)
| global_object (typeof : jl_value_t).

(** The globals the pass reads and writes, and what it sends out. *)
Record driver_state := {
  jl_module_init_order : option (list jl_module_t);   (* [None]: NULL *)
  compile_hints : list jl_value_t;                   (* [jl_compile_hint] *)
  stderr : list string
}.

(** *** A sample run *)

(** An incremental run that writes an object file and a [.ji] file. *)
Definition incremental_options : jl_options_t :=
  {| outputo := true; outputbc := false; outputunoptbc := false;
     outputji := true; outputasm := false; incremental := true |}.

(** The state after a run that defined the module [A]. *)
Definition state_after_A : driver_state :=
  {| jl_module_init_order := Some [module_A]; compile_hints := [];
     stderr := [] |}.

End Driver.

(** ** The functions of [precompile.c] that call into the runtime *)

Module Precompile.
Import JlTypes MixedRadix Enumerator Selector Serializer Driver.

Section WithRuntime.

(** The functions of the runtime that [precompile.c] calls and that are not
    determined by the structures above. *)

(** [jl_instantiate_type_with(sigbody, env, n)]; [None] when it throws. *)
Variable jl_instantiate_type_with :
  jl_value_t -> list jl_value_t -> option jl_value_t.
(** The flags the runtime computes for the tuple type of a parameter
    vector. *)
Variable tuple_flags : list jl_value_t -> jl_datatype_flags.
(** [jl_specializations_get_linfo(m, type, jl_emptysvec)] *)
Variable jl_specializations_get_linfo :
  jl_method_t -> jl_value_t -> jl_method_instance_t.
(** [mi->def.method] *)
Variable def_method : jl_method_instance_t -> jl_method_t.
Variable jl_isa_compileable_sig : jl_value_t -> jl_method_t -> bool.
(** [jl_get_specialization1(types, world, ...)] at the current world;
    [None] is [NULL]. *)
Variable jl_get_specialization1 : jl_value_t -> option jl_method_instance_t.
(** [jl_get_unspecialized(m)]; [None] is [NULL]. *)
Variable jl_get_unspecialized : jl_method_t -> option jl_method_instance_t.
(** The tables [jl_foreach_reachable_mtable] visits, before any hint. *)
Variable reachable_mtables : list jl_methtable_t.
(** The tables [jl_foreach_reachable_mtable] visits once the given
    signatures have been passed to [jl_compile_hint]. *)
Variable mtables_after_hints : list jl_value_t -> list jl_methtable_t.
(** The tables [foreach_mtable_in_module] visits for a module. *)
Variable foreach_mtable_in_module : jl_module_t -> list jl_methtable_t.
(** [ios_file(&srctext, depstr, 1, 0, 0, 0)] followed by reading the whole
    file: [None] when the file cannot be opened. *)
Variable file_contents : list byte -> option (list byte).
(** [jl_crc32c(crc, buf, len)]: the pointer [buf] is given as the bytes of
    the buffer from it on, [len] is the [size_t] it is called with. *)
Variable jl_crc32c : Z -> list byte -> Z -> Z.
(** [jl_get_global(m, jl_symbol(name))]; [None] is [NULL]. *)
Variable jl_get_global : jl_module_t -> string -> option jl_global.
Variable jl_get_module_compile : jl_module_t -> compile_setting.
(** [jl_wrap_Type(t)]: the type [Type{t}]. *)
Variable jl_wrap_Type : jl_value_t -> jl_value_t.

(** *** The enumerator *)

(** [jl_apply_tuple_type(p)]: the datatype [Tuple{p...}]. *)
Definition jl_apply_tuple_type (p : list jl_value_t) : jl_value_t :=
  jl_datatype jl_tuple_typename p (tuple_flags p).

(** The body of the outer loop of [_compile_all_tvar_union] up to the label
    [getnext]. The value of [jl_compile_hint] is not recorded: both of its
    outcomes continue at [getnext]. *)
Definition try_signature (sigbody : jl_value_t) (env : list jl_value_t)
  : attempt :=
  match jl_instantiate_type_with sigbody env with
  | None => InstantiationFailed
  | Some sig =>
      if negb (jl_has_concrete_subtype sig) then NoConcreteSubtype sig
      else if jl_is_concrete_type sig then Hinted sig
      else NotConcrete sig
  end.

(** The outer loop of [_compile_all_tvar_union], entered with [i <
    tvarslen]: each pass is recorded with the bindings it tried. *)
Fixpoint tvar_loop (fuel : nat) (sigbody : jl_value_t) (tvarslen : nat)
    (env : list jl_value_t) (idx : list nat)
  : option (list (list jl_value_t * attempt)) :=
  match fuel with
  | 0 => None
  | S fuel =>
      let a := try_signature sigbody env in
      let '(i, env', idx') := getnext tvarslen 0 env idx in
      if i <? tvarslen then
        rest ← tvar_loop fuel sigbody tvarslen env' idx'; Some ((env, a) :: rest)
      else Some [(env, a)]
  end.

Definition _compile_all_tvar_union (fuel : nat) (methsig : jl_value_t)
  : option (list (list jl_value_t * attempt)) :=
  let tvarslen := jl_subtype_env_size methsig in
  let '(env, sigbody) := tvar_env_init methsig in
  let idx := replicate tvarslen 0 in
  if 0 <? tvarslen then tvar_loop fuel sigbody tvarslen env idx
  else Some [].

(** The signatures [_compile_all_union] builds and passes on to
    [_compile_all_tvar_union], in order. *)
Definition union_split_signatures (fuel : nat) (sig : jl_value_t)
  : option (list jl_value_t) :=
  let sigbody := jl_unwrap_unionall sig in
  let params := parameters_of sigbody in
  match scan_parameters params 0 with
  | None => Some []
  | Some count_unions =>
      if (count_unions =? 0) || (6 <=? count_unions) then Some [sig]
      else
        match union_loop fuel params (replicate count_unions 0) with
        | Some ps =>
            Some (map (fun p => jl_rewrap_unionall (jl_apply_tuple_type p) sig) ps)
        | None => None
        end
  end.

(** [_compile_all_union]: every call of [_compile_all_tvar_union] it makes,
    with the argument and what that call did. *)
Definition _compile_all_union (fuel : nat) (sig : jl_value_t)
  : option (list (jl_value_t * list (list jl_value_t * attempt))) :=
  sigs ← union_split_signatures fuel sig;
  mapM (fun methsig =>
          log ← _compile_all_tvar_union fuel methsig; Some (methsig, log))
       sigs.

(** The signatures passed to [jl_compile_hint], in order. *)
Definition hints_of_log (log : list (list jl_value_t * attempt))
  : list jl_value_t :=
  omap (fun e => hint_of e.2) log.

Definition hinted (calls : list (jl_value_t * list (list jl_value_t * attempt)))
  : list jl_value_t :=
  concat (map (fun c => hints_of_log c.2) calls).

(** *** The selector *)

Definition precompile_enq_all_specializations__ (m : jl_method_t)
    (closure : list item) : list item :=
  let closure :=
    if (bool_decide (name m = "__init__"%string) ||
        bool_decide (is_Some (ccallable m)))
       && jl_is_dispatch_tupletype (sig m)
    then closure ++ [item_mi (jl_specializations_get_linfo m (sig m))]
    else
      foldl (fun closure mi =>
               match mi with
               | Some mi => precompile_enq_specialization_ mi closure
               | None => closure
               end) closure (specializations m) in
  match ccallable m with
  | Some (rettype, sigt) => closure ++ [item_svec rettype sigt]
  | None => closure
  end.

(** [jl_typemap_visitor] over [mt->defs]; the visitor always returns 1. *)
Definition precompile_enq_all_specializations_ (mt : jl_methtable_t)
    (env : list item) : list item :=
  foldl (fun env m => precompile_enq_all_specializations__ m env) env (defs mt).

(** The array [m2] that [jl_precompile_] hands to [jl_create_native]. *)
Definition jl_precompile_ (m : list item) : list item :=
  foldl (fun m2 it =>
           match it with
           | item_mi mi =>
               let mi' :=
                 if negb (bool_decide (Some (mi_addr mi) =
                                       unspecialized (def_method mi))) &&
                    negb (jl_isa_compileable_sig (specTypes mi) (def_method mi))
                 then jl_get_specialization1 (specTypes mi)
                 else Some mi in
               match mi' with
               | Some mi' => m2 ++ [item_mi mi']
               | None => m2
               end
           | item_svec _ _ => m2 ++ [it]
           end) [] m.

(** The array [m] of [jl_precompile_worklist] before [jl_precompile_]. *)
Definition worklist_found (worklist : list jl_module_t) : list item :=
  foldl (fun m md =>
           foldl (fun m mt => precompile_enq_all_specializations_ mt m)
                 m (foreach_mtable_in_module md))
        [] worklist.

(** [jl_precompile_worklist]: [None] for a [NULL] worklist, otherwise the
    array compiled. *)
Definition jl_precompile_worklist (worklist : option (list jl_module_t))
  : option (list item) :=
  match worklist with
  | None => None
  | Some worklist => Some (jl_precompile_ (worklist_found worklist))
  end.

(** The items [precompile_enq_all_specializations__] pushes for a method:
    the specialization for the declared signature in the forced branch,
    otherwise the specializations the cache scan accepts; and the
    [ccallable] record. *)
Definition enqueued_by (m : jl_method_t) (x : item) : Prop :=
  (is_forced m = true /\
   x = item_mi (jl_specializations_get_linfo m (sig m))) \/
  (is_forced m = false /\
   exists mi, Some mi ∈ specializations m /\ x = item_mi mi /\
              exists c, c ∈ cache mi /\ entry_selected c) \/
  (exists rettype sigt, ccallable m = Some (rettype, sigt) /\
                        x = item_svec rettype sigt).

(** [compile_all_collect_]/[compile_all_collect__]: the methods with a
    non-generated definition. *)
Definition allmeths : list jl_method_t :=
  List.filter source (concat (map defs reachable_mtables)).

(** The body of the loop of [jl_compile_all_defs] for one method, on the
    pair of the signatures hinted so far and the array [mis]. *)
Definition compile_all_defs_step (fuel : nat) (m : jl_method_t)
    (st : list jl_value_t * list item)
  : option (list jl_value_t * list item) :=
  if jl_isa_compileable_sig (sig m) m then
    Some (st.1 ++ [sig m], st.2)
  else
    match _compile_all_union fuel (sig m) with
    | None => None
    | Some calls =>
        let hints := st.1 ++ hinted calls in
        match jl_get_unspecialized m with
        | Some unspec => Some (hints, st.2 ++ [item_mi unspec])
        | None => Some (hints, st.2)
        end
    end.

Fixpoint compile_all_defs_loop (fuel : nat) (ms : list jl_method_t)
    (st : list jl_value_t * list item)
  : option (list jl_value_t * list item) :=
  match ms with
  | [] => Some st
  | m :: ms =>
      match compile_all_defs_step fuel m st with
      | Some st => compile_all_defs_loop fuel ms st
      | None => None
      end
  end.

(** [jl_compile_all_defs(mis)]: the signatures passed to [jl_compile_hint]
    and the array [mis] afterwards. *)
Definition jl_compile_all_defs (fuel : nat) (mis : list item)
  : option (list jl_value_t * list item) :=
  compile_all_defs_loop fuel allmeths ([], mis).

(** [jl_precompile(all)]: the signatures hinted and the array compiled. The
    second walk over the reachable tables sees them as the hints left
    them. *)
Definition jl_precompile (fuel : nat) (all : bool)
  : option (list jl_value_t * list item) :=
  match (if all then jl_compile_all_defs fuel [] else Some ([], [])) with
  | None => None
  | Some (hints, m) =>
      let m := foldl (fun m mt => precompile_enq_all_specializations_ mt m)
                     m (mtables_after_hints hints) in
      Some (hints, jl_precompile_ m)
  end.

(** Passes that are enough for the enumerator on every method of the
    sweep. *)
Definition sweep_fuel : nat :=
  foldr (fun m n => enumeration_fuel (sig m) + n) 0 allmeths.

(** *** The serializer *)

(** The body of the loop of [write_srctext] for one dependency. The
    warning printed for a file that cannot be opened is not part of the
    stream and is left out. *)
Definition write_dependency (f : ios_t) (deptuple : dependency) : ios_t :=
  if bool_decide (depmod deptuple <> jl_main_module) then
    let depstr := abspath deptuple in
    if (default 0 (head depstr) =? 0)%Z then f
    else
      match file_contents (c_string depstr) with
      | None => f
      | Some srctext =>
          let slen := length depstr in
          let f := write_int32 f (Z.of_nat slen) in
          let f := ios_write f depstr in
          let posfile := ios_pos f in
          let f := write_uint64 f 0 in
          let filelen := length srctext in
          let f := ios_write f srctext in
          let f := ios_seek f posfile in
          let f := write_uint64 f (Z.of_nat filelen) in
          ios_seek_end f
      end
  else f.

Definition write_srctext (f : ios_t) (udeps : option (list dependency))
    (srctextpos : nat) : ios_t :=
  let f :=
    match udeps with
    | Some udeps =>
        let posfile := ios_pos f in
        let f := ios_seek f srctextpos in
        let f := write_uint64 f (Z.of_nat posfile) in
        let f := ios_seek_end f in
        foldl write_dependency f udeps
    | None => f
    end in
  write_int32 f 0.

(** The files [write_srctext] embeds: the dependencies outside [Main] with
    a non-empty path whose file can be opened. *)
Definition embedded_files (udeps : list dependency)
  : list (list byte * list byte) :=
  omap (fun d =>
          if bool_decide (depmod d <> jl_main_module) then
            if (default 0 (head (abspath d)) =? 0)%Z then None
            else (fun text => (abspath d, text)) <$> file_contents (c_string (abspath d))
          else None) udeps.

(** The block of [jl_write_compiler_output] under
    [(jl_options.outputji || emit_native) && jl_options.incremental]. The
    length [dataendpos - datastartpos] is an [int64_t] difference passed as
    a [size_t]: it wraps around when the data start lies behind the
    position. The checksum is a [uint32_t]. *)
Definition patch_header (s : ios_t) (udeps : option (list dependency))
    (srctextpos checksumpos datastartpos : nat) : ios_t :=
  let dataendpos := ios_pos s in
  let checksum :=
    (jl_crc32c 0 (drop datastartpos (buf s))
       ((Z.of_nat dataendpos - Z.of_nat datastartpos) mod 2 ^ 64)
     mod 2 ^ 32)%Z in
  let s := ios_seek s checksumpos in
  let s := write_uint64 s (Z.lor checksum (Z.shiftl 0xfafbfcfd 32)) in
  let s := ios_seek s srctextpos in
  let s := write_uint64 s (Z.of_nat dataendpos) in
  write_srctext s udeps srctextpos.

(** *** The driver *)

(** The body of the loop over the old initialization order. *)
Definition init_order_step (st : driver_state) (m : jl_module_t)
  : driver_state :=
  match jl_get_global m "__init__" with
  | Some f =>
      let order := (fun l => l ++ [m]) <$> jl_module_init_order st in
      let setting := jl_get_module_compile m in
      match setting with
      | JL_OPTIONS_COMPILE_OFF | JL_OPTIONS_COMPILE_MIN =>
          {| jl_module_init_order := order;
             compile_hints := compile_hints st; stderr := stderr st |}
      | _ =>
          let tt := match f with
                    | global_type t => jl_wrap_Type t
                    | global_object typeof => typeof
                    end in
          let tt := jl_apply_tuple_type [tt] in
          {| jl_module_init_order := order;
             compile_hints := compile_hints st ++ [tt]; stderr := stderr st |}
      end
  | None => st
  end.

(** [jl_write_compiler_output] up to the selection of the methods: the
    state afterwards, and the [worklist] it goes on with ([None] when the
    function has returned). *)
Definition rebuild_init_order (jl_options : jl_options_t) (st : driver_state)
  : driver_state * option (list jl_module_t) :=
  if negb (jl_generating_output jl_options) then (st, None)
  else
    match jl_module_init_order st with
    | None =>
        ({| jl_module_init_order := None; compile_hints := compile_hints st;
            stderr := stderr st ++
              ["WARNING: --output requested, but no modules defined during run"%string] |},
         None)
    | Some worklist =>
        (foldl init_order_step
               {| jl_module_init_order := Some [];
                  compile_hints := compile_hints st; stderr := stderr st |}
               worklist,
         Some worklist)
    end.

(** The signature the loop hints for a module of the old order, if any:
    [Tuple{typeof(f)}], or [Tuple{Type{f}}] when [f] is a type, for the
    global [f] named [__init__] of a module whose compile setting is
    neither off nor min. *)
Definition init_hint (m : jl_module_t) : option jl_value_t :=
  match jl_get_global m "__init__" with
  | Some f =>
      match jl_get_module_compile m with
      | JL_OPTIONS_COMPILE_OFF | JL_OPTIONS_COMPILE_MIN => None
      | _ =>
          Some (jl_apply_tuple_type
                  [match f with
                   | global_type t => jl_wrap_Type t
                   | global_object typeof => typeof
                   end])
      end
  | None => None
  end.

(** The selection of [jl_write_compiler_output], lines 111-118: the
    signatures it hints and [native_code] ([None] is [NULL]).
    [compile_enabled] is [jl_options.compile_enabled]. The global
    [jl_precompile_toplevel_module], set around the call in incremental
    mode, is read by the code generator only and is left out. *)
Definition select_native_code (jl_options : jl_options_t)
    (compile_enabled : compile_setting) (fuel : nat)
    (worklist : list jl_module_t)
  : option (list jl_value_t * option (list item)) :=
  if outputo jl_options || outputbc jl_options || outputunoptbc jl_options ||
     outputasm jl_options
  then
    if incremental jl_options
    then Some ([], jl_precompile_worklist (Some worklist))
    else
      match jl_precompile fuel
              (bool_decide (compile_enabled = JL_OPTIONS_COMPILE_ALL)) with
      | Some (hints, m) => Some (hints, Some m)
      | None => None
      end
  else Some ([], None).

(** * Part II: properties *)

(** ** The mixed-radix counter *)

Lemma counter_step_idle rs ds : counter_step rs ds false = (ds, false).
Proof.
  revert ds; induction rs as [|l rs IH]; intros [|j ds]; simpl; try done.
  by rewrite IH.
Qed.

Lemma valid_length rs ds : valid rs ds -> length ds = length rs.
Proof. apply Forall2_length. Qed.

Lemma value_lt_capacity rs ds : valid rs ds -> value rs ds < capacity rs.
Proof.
  unfold valid. intros H. induction H as [|j l ds rs Hj H IH]; simpl; [lia|].
  fold (capacity rs). nia.
Qed.

Lemma capacity_pos rs ds : valid rs ds -> 0 < capacity rs.
Proof. intros H. pose proof (value_lt_capacity _ _ H). lia. Qed.

Lemma counter_step_cons l rs j ds incr :
  counter_step (l :: rs) (j :: ds) incr =
  (let '(d, c) := if incr then (if S j =? l then (0, true) else (S j, false))
                  else (j, false) in
   let '(ds', c') := counter_step rs ds c in (d :: ds', c')).
Proof. done. Qed.

Lemma counter_step_spec rs ds ds' c :
  valid rs ds -> counter_step rs ds true = (ds', c) ->
  if c then ds' = replicate (length ds) 0 /\ S (value rs ds) = capacity rs
  else valid rs ds' /\ value rs ds' = S (value rs ds).
Proof.
  unfold valid. intros H. revert ds' c.
  induction H as [|j l ds rs Hj H IH]; intros ds' c.
  - intros ?; simplify_eq/=. done.
  - rewrite counter_step_cons.
    destruct (S j =? l) eqn:Ej; [apply Nat.eqb_eq in Ej | apply Nat.eqb_neq in Ej].
    + destruct (counter_step rs ds true) as [ds1 c1] eqn:E.
      intros Heq; injection Heq as <- <-. specialize (IH _ _ eq_refl).
      destruct c1; simpl in IH |- *; fold (capacity rs).
      * destruct IH as [-> IH]. split; [done|]. lia.
      * destruct IH as [IH1 IH2]. split; [constructor; [lia|done]|]. lia.
    + rewrite counter_step_idle. intros Heq; injection Heq as <- <-.
      split; [constructor; [lia|done]|]. simpl. lia.
Qed.

Lemma to_digits_value rs ds : valid rs ds -> to_digits rs (value rs ds) = ds.
Proof.
  unfold valid. intros H. induction H as [|j l ds rs Hj H IH]; simpl; [done|].
  f_equal.
  - rewrite (Nat.mul_comm l), Nat.Div0.mod_add. by apply Nat.mod_small.
  - rewrite (Nat.mul_comm l), Nat.div_add by lia.
    rewrite (Nat.div_small j l) by lia. done.
Qed.

Lemma to_digits_valid rs v : Forall (fun l => 0 < l) rs -> valid rs (to_digits rs v).
Proof.
  intros H. revert v. induction H as [|l rs Hl H IH]; intros v; simpl; constructor.
  - apply Nat.mod_upper_bound. lia.
  - apply IH.
Qed.

Lemma value_to_digits rs v :
  Forall (fun l => 0 < l) rs -> v < capacity rs -> value rs (to_digits rs v) = v.
Proof.
  intros H. revert v. induction H as [|l rs Hl H IH]; intros v; simpl.
  - lia.
  - fold (capacity rs). intros Hv. rewrite IH.
    + pose proof (Nat.div_mod_eq v l). lia.
    + apply Nat.Div0.div_lt_upper_bound. lia.
Qed.


Lemma valid_pos rs ds : valid rs ds -> Forall (fun l => 0 < l) rs.
Proof. unfold valid. induction 1; constructor; [lia|done]. Qed.

Lemma valid_zero rs : Forall (fun l => 0 < l) rs -> valid rs (replicate (length rs) 0).
Proof. unfold valid. induction 1; simpl; constructor; done. Qed.

Lemma value_zero rs : value rs (replicate (length rs) 0) = 0.
Proof. induction rs; simpl; [done|]. rewrite IHrs. lia. Qed.

Lemma counter_step_to_digits rs v :
  Forall (fun l => 0 < l) rs -> v < capacity rs ->
  counter_step rs (to_digits rs v) true =
  if S v =? capacity rs then (replicate (length rs) 0, true)
  else (to_digits rs (S v), false).
Proof.
  intros Hrs Hv.
  pose proof (to_digits_valid rs v Hrs) as Hval.
  destruct (counter_step rs (to_digits rs v) true) as [ds' c] eqn:E.
  pose proof (counter_step_spec _ _ _ _ Hval E) as Hs.
  rewrite value_to_digits in Hs by done.
  rewrite (valid_length _ _ Hval) in Hs.
  destruct c.
  - destruct Hs as [-> Hs]. rewrite Hs, Nat.eqb_refl. done.
  - destruct Hs as [Hv' Hs].
    pose proof (value_lt_capacity _ _ Hv') as Hlt.
    destruct (S v =? capacity rs) eqn:Ec; [apply Nat.eqb_eq in Ec; lia|].
    by rewrite <- Hs, to_digits_value.
Qed.

(** ** The enumerator *)

(** *** The counters of the two loops *)

#[local] Arguments Nat.eqb : simpl never.
#[local] Arguments Nat.ltb : simpl never.
#[local] Arguments Nat.leb : simpl never.

Lemma union_components_nonempty v : 0 < jl_count_union_components v.
Proof.
  unfold jl_count_union_components.
  induction v; simpl; try lia. rewrite length_app. lia.
Qed.

Lemma union_radices_pos params : Forall (fun l => 0 < l) (union_radices params).
Proof.
  induction params as [|ty rest IH]; simpl; [constructor|].
  destruct (jl_is_uniontype ty); [constructor|]; auto using union_components_nonempty.
Qed.

Lemma scan_parameters_spec params n :
  scan_parameters params n =
  if existsb abandons params then None
  else Some (n + length (union_radices params)).
Proof.
  revert n. induction params as [|ty rest IH]; intros n; simpl.
  - f_equal; lia.
  - unfold abandons at 1. destruct (jl_is_uniontype ty); simpl.
    + rewrite IH. destruct (existsb abandons rest); [done|]. f_equal; lia.
    + destruct (is_bottom_type ty); [done|].
      match goal with |- (if ?b then _ else _) = _ => destruct b end; [done|].
      simpl. apply IH.
Qed.

Lemma fill_parameters_spec params pre ds incr :
  length ds = length (union_radices params) ->
  fill_parameters params (pre ++ ds) (length pre) incr =
  (combination params ds,
   pre ++ (counter_step (union_radices params) ds incr).1,
   (counter_step (union_radices params) ds incr).2).
Proof.
  revert pre ds incr. induction params as [|ty rest IH]; intros pre ds incr Hlen.
  - simpl in *. destruct ds; [done|discriminate].
  - simpl fill_parameters. simpl combination. simpl union_radices in *.
    destruct (jl_is_uniontype ty).
    + destruct ds as [|j ds]; [discriminate|]. simpl in Hlen.
      rewrite counter_step_cons.
      rewrite list_lookup_middle by done. simpl.
      assert (Hins : forall d, <[length pre := d]> (pre ++ j :: ds) = (pre ++ [d]) ++ ds).
      { intros d. rewrite insert_app_r_alt by lia.
        rewrite Nat.sub_diag. simpl. by rewrite <- app_assoc. }
      assert (Hpre : forall d : nat, S (length pre) = length (pre ++ [d])).
      { intros d. rewrite length_app. simpl. lia. }
      destruct incr.
      * destruct (S j =? jl_count_union_components ty).
        -- rewrite Hins, (Hpre 0), IH by lia.
           destruct (counter_step (union_radices rest) ds true); simpl.
           by rewrite <- app_assoc.
        -- rewrite Hins, (Hpre (S j)), IH by lia.
           destruct (counter_step (union_radices rest) ds false); simpl.
           by rewrite <- app_assoc.
      * assert (pre ++ j :: ds = (pre ++ [j]) ++ ds) as -> by (by rewrite <- app_assoc).
        rewrite (Hpre j), IH by lia.
        destruct (counter_step (union_radices rest) ds false); simpl.
        by rewrite <- app_assoc.
    + rewrite IH by done. done.
Qed.

Lemma union_loop_spec fuel params v :
  let rs := union_radices params in
  v < capacity rs -> capacity rs - v <= fuel ->
  union_loop fuel params (to_digits rs v) =
  Some (map (fun w => combination params (to_digits rs w))
            (seq v (capacity rs - v))).
Proof.
  intros rs. revert v. induction fuel as [|fuel IH]; intros v Hv Hfuel; [lia|].
  simpl union_loop.
  pose proof (union_radices_pos params) as Hpos. fold rs in Hpos.
  pose proof (fill_parameters_spec params [] (to_digits rs v) true) as Hfill.
  simpl in Hfill. rewrite Hfill by (apply valid_length, to_digits_valid; done).
  fold rs. rewrite counter_step_to_digits by done.
  destruct (S v =? capacity rs) eqn:Ec.
  - apply Nat.eqb_eq in Ec. simpl.
    replace (capacity rs - v) with 1 by lia. done.
  - apply Nat.eqb_neq in Ec. simpl. rewrite IH by lia. simpl.
    replace (capacity rs - v) with (S (capacity rs - S v)) by lia. done.
Qed.

Lemma to_digits_zero rs : Forall (fun l => 0 < l) rs -> to_digits rs 0 = replicate (length rs) 0.
Proof.
  induction 1 as [|l rs Hl H IH]; simpl; [done|].
  rewrite Nat.Div0.mod_0_l, Nat.Div0.div_0_l, IH. done.
Qed.


Lemma tvar_radices_pos env : Forall (fun l => 0 < l) (tvar_radices env).
Proof.
  assert (H : Forall (fun l => 0 < l) (tvar_radices env) /\
              forall x, Forall (fun l => 0 < l) (tvar_radices (x :: env))).
  { induction env as [|b env [IH1 IH2]].
    - split; [constructor|intros x; constructor].
    - split; [apply IH2|]. intros x. simpl. constructor; [|done].
      destruct (jl_is_uniontype (tvar_ub x)); lia. }
  apply H.
Qed.

Lemma tvar_radices_length env n : length env = 2 * n -> length (tvar_radices env) = n.
Proof.
  revert env. induction n as [|n IH]; intros env Hlen.
  - destruct env; [done|discriminate].
  - destruct env as [|tv [|b env]]; simpl in Hlen; try lia.
    simpl. f_equal. apply IH. lia.
Qed.

Lemma getnext_S k i env idx :
  getnext (S k) i env idx =
  (let tv := default jl_NULL (env !! (2 * i)) in
   if jl_is_uniontype (tvar_ub tv) then
     let l := jl_count_union_components (tvar_ub tv) in
     let j := default 0 (idx !! i) in
     if j =? l then
       getnext k (S i) (<[2 * i + 1 := jl_bottom_type]> env) (<[i := 0]> idx)
     else
       let ty := jl_nth_union_component (tvar_ub tv) j in
       let ty := if jl_is_concrete_type ty then ty
                 else jl_tvar (tvar_name tv) (tvar_lb tv) ty in
       (i, <[2 * i + 1 := ty]> env, <[i := S j]> idx)
   else
     getnext k (S i) (<[2 * i + 1 := tv]> env) idx).
Proof. done. Qed.

Lemma getnext_spec k : forall i epre erest pre ds,
  length epre = 2 * i -> length pre = i ->
  length erest = 2 * k ->
  valid (tvar_radices erest) ds ->
  exists i' erest',
    getnext k i (epre ++ erest) (pre ++ ds) =
    (i', epre ++ erest', pre ++ (counter_step (tvar_radices erest) ds true).1) /\
    length erest' = length erest /\
    tvar_radices erest' = tvar_radices erest /\
    (if (counter_step (tvar_radices erest) ds true).2 then i' = i + k
     else i' < i + k).
Proof.
  induction k as [|k IH]; intros i epre erest pre ds Hepre Hpre Herest Hval.
  - destruct erest; [|discriminate]. inversion Hval; subst. simpl.
    exists (length pre), []. split; [done|]. split; [done|]. split; [done|]. lia.
  - destruct erest as [|tv [|b erest]]; simpl in Herest; try lia.
    simpl tvar_radices in *.
    inversion Hval as [|j l ds' rs' Hj Hval']; subst.
    assert (Hlk : (epre ++ tv :: b :: erest) !! (2 * length pre) = Some tv).
    { rewrite <- Hepre. apply list_lookup_middle. done. }
    assert (Hlki : (pre ++ j :: ds') !! length pre = Some j).
    { apply list_lookup_middle. done. }
    assert (Hinse : forall x, <[2 * length pre + 1 := x]> (epre ++ tv :: b :: erest)
                              = (epre ++ [tv; x]) ++ erest).
    { intros x. rewrite insert_app_r_alt by lia.
      replace (2 * length pre + 1 - length epre) with 1 by lia.
      simpl. by rewrite <- app_assoc. }
    assert (Hinsi : forall x : nat, <[length pre := x]> (pre ++ j :: ds') = (pre ++ [x]) ++ ds').
    { intros x. rewrite insert_app_r_alt by lia.
      rewrite Nat.sub_diag. simpl. by rewrite <- app_assoc. }
    assert (Hlen2 : forall x, length (epre ++ [tv; x]) = 2 * S (length pre)).
    { intros x. rewrite length_app. simpl. lia. }
    assert (Hlen1 : forall x : nat, length (pre ++ [x]) = S (length pre)).
    { intros x. rewrite length_app. simpl. lia. }
    rewrite counter_step_cons.
    rewrite !getnext_S. rewrite Hlk, Hlki. cbv zeta. simpl default.
    destruct (jl_is_uniontype (tvar_ub tv)) eqn:Eu.
    + change (S j =? S (jl_count_union_components (tvar_ub tv)))
        with (j =? jl_count_union_components (tvar_ub tv)).
      destruct (j =? jl_count_union_components (tvar_ub tv)) eqn:Ej.
      * rewrite Hinse, Hinsi.
        destruct (IH (S (length pre)) (epre ++ [tv; jl_bottom_type]) erest (pre ++ [0]) ds')
          as (i' & erest' & Heq & Hl & Hr & Hlt); [by rewrite Hlen2|by rewrite Hlen1|lia|done|].
        destruct (counter_step (tvar_radices erest) ds' true) as [ds2 c2] eqn:Ecs.
        simpl in Heq, Hlt |- *.
        exists i', (tv :: jl_bottom_type :: erest').
        rewrite Heq, <- !app_assoc. simpl.
        split; [done|split; [lia|split; [by rewrite Eu, Hr|]]].
        destruct c2; lia.
      * rewrite counter_step_idle. simpl.
        eexists (length pre), (tv :: _ :: erest). rewrite Hinse, Hinsi, <- !app_assoc. simpl.
        split; [done|]. split; [done|]. split; [by rewrite Eu|]. lia.
    + assert (j = 0) as -> by lia.
      change (1 =? 1) with true. cbv iota.
      rewrite Hinse.
      assert (pre ++ 0 :: ds' = (pre ++ [0]) ++ ds') as -> by (by rewrite <- app_assoc).
      destruct (IH (S (length pre)) (epre ++ [tv; tv]) erest (pre ++ [0]) ds')
          as (i' & erest' & Heq & Hl & Hr & Hlt); [by rewrite Hlen2|by rewrite Hlen1|lia|done|].
      destruct (counter_step (tvar_radices erest) ds' true) as [ds2 c2] eqn:Ecs.
      simpl in Heq, Hlt |- *.
      exists i', (tv :: tv :: erest').
      rewrite Heq, <- !app_assoc. simpl.
      split; [done|split; [lia|split; [by rewrite Eu, Hr|]]].
      destruct c2; lia.
Qed.

Lemma tvar_loop_spec fuel sigbody : forall n env idx,
  0 < n -> length env = 2 * n -> valid (tvar_radices env) idx ->
  capacity (tvar_radices env) - value (tvar_radices env) idx <= fuel ->
  exists log,
    tvar_loop fuel sigbody n env idx =
      Some ((env, try_signature sigbody env) :: log) /\
    S (length log) = capacity (tvar_radices env) - value (tvar_radices env) idx /\
    Forall (fun e => e.2 = try_signature sigbody e.1) log.
Proof.
  induction fuel as [|fuel IH]; intros n env idx Hn Hlen Hval Hfuel.
  - pose proof (value_lt_capacity _ _ Hval). lia.
  - simpl tvar_loop.
    destruct (getnext_spec n 0 [] env [] idx) as (i' & env' & Heq & Hl & Hr & Hc);
      [done|done|done|done|].
    simpl in Heq. rewrite Heq.
    destruct (counter_step (tvar_radices env) idx true) as [idx' c] eqn:Ecs.
    pose proof (counter_step_spec _ _ _ _ Hval Ecs) as Hs.
    simpl in Hc |- *. destruct c.
    + subst i'. rewrite Nat.ltb_irrefl. exists []. split; [done|].
      split; [simpl; lia|constructor].
    + destruct Hs as [Hval' Hs].
      assert ((i' <? n) = true) as -> by (apply Nat.ltb_lt; lia).
      destruct (IH n env' idx') as (log & Hlog & Hlenlog & Hall);
        [done|lia|by rewrite Hr|rewrite Hr|].
      { lia. }
      rewrite Hlog. simpl. eexists. split; [done|].
      pose proof (value_lt_capacity _ _ Hval').
      split; [simpl; rewrite Hlenlog, Hr; lia|].
      constructor; [done|done].
Qed.

Lemma tvar_loop_more_fuel fuel fuel' sigbody n env idx log :
  tvar_loop fuel sigbody n env idx = Some log -> fuel <= fuel' ->
  tvar_loop fuel' sigbody n env idx = Some log.
Proof.
  revert fuel' env idx log. induction fuel as [|fuel IH]; intros fuel' env idx log; [done|].
  intros H Hle. destruct fuel' as [|fuel']; [lia|].
  simpl in H |- *.
  destruct (getnext n 0 env idx) as [[i env'] idx'].
  destruct (i <? n); [|done].
  destruct (tvar_loop fuel sigbody n env' idx') as [rest|] eqn:E; [|done].
  rewrite (IH fuel' _ _ _ E) by lia. done.
Qed.

Lemma tvar_env_init_spec methsig :
  length (tvar_env_init methsig).1 = 2 * jl_subtype_env_size methsig /\
  (tvar_env_init methsig).2 = jl_unwrap_unionall methsig.
Proof.
  induction methsig; simpl; try done.
  destruct (tvar_env_init methsig2) as [env sb]. simpl in *.
  destruct IHmethsig2 as [IH1 IH2]. split; [lia|done].
Qed.

Lemma tvar_env_init_valid methsig :
  valid (tvar_radices (tvar_env_init methsig).1)
        (replicate (jl_subtype_env_size methsig) 0) /\
  value (tvar_radices (tvar_env_init methsig).1)
        (replicate (jl_subtype_env_size methsig) 0) = 0.
Proof.
  destruct (tvar_env_init_spec methsig) as [Hlen _].
  rewrite <- (tvar_radices_length _ _ Hlen).
  split; [apply valid_zero, tvar_radices_pos | apply value_zero].
Qed.

Lemma compile_all_tvar_union_no_tvars fuel methsig :
  jl_subtype_env_size methsig = 0 ->
  _compile_all_tvar_union fuel methsig = Some [].
Proof.
  intros H. unfold _compile_all_tvar_union. rewrite H.
  by destruct (tvar_env_init methsig).
Qed.

Lemma compile_all_tvar_union_spec fuel methsig :
  0 < jl_subtype_env_size methsig ->
  capacity (tvar_radices (tvar_env_init methsig).1) <= fuel ->
  exists log,
    _compile_all_tvar_union fuel methsig =
      Some (((tvar_env_init methsig).1,
             try_signature (jl_unwrap_unionall methsig) (tvar_env_init methsig).1) :: log) /\
    S (length log) = capacity (tvar_radices (tvar_env_init methsig).1) /\
    Forall (fun e => e.2 = try_signature (jl_unwrap_unionall methsig) e.1) log.
Proof.
  intros Hn Hfuel. unfold _compile_all_tvar_union.
  destruct (tvar_env_init_spec methsig) as [Hlen Hbody].
  destruct (tvar_env_init_valid methsig) as [Hval Hzero].
  destruct (tvar_env_init methsig) as [env sigbody]. simpl in *.
  assert ((0 <? jl_subtype_env_size methsig) = true) as -> by (by apply Nat.ltb_lt).
  destruct (tvar_loop_spec fuel sigbody _ env _ Hn Hlen Hval)
    as (log & Hlog & Hl & Hall); [lia|].
  exists log. rewrite Hlog, Hbody in *. split; [done|]. split; [lia|done].
Qed.

Lemma compile_all_tvar_union_total methsig k :
  exists log,
    _compile_all_tvar_union (capacity (tvar_radices (tvar_env_init methsig).1) + k) methsig = Some log /\
    Forall (fun e => e.2 = try_signature (jl_unwrap_unionall methsig) e.1) log.
Proof.
  destruct (jl_subtype_env_size methsig) as [|n] eqn:En.
  - exists []. split; [by apply compile_all_tvar_union_no_tvars|constructor].
  - destruct (compile_all_tvar_union_spec
                (capacity (tvar_radices (tvar_env_init methsig).1) + k) methsig)
      as (log & Hlog & _ & Hall); [lia|lia|].
    eexists. split; [done|]. constructor; done.
Qed.


Lemma tvar_env_init_rewrap t sig :
  jl_is_unionall t = false ->
  tvar_env_init (jl_rewrap_unionall t sig) = ((tvar_env_init sig).1, t) /\
  jl_subtype_env_size (jl_rewrap_unionall t sig) = jl_subtype_env_size sig.
Proof.
  intros Ht. induction sig; simpl; try (by destruct t).
  destruct IHsig2 as [-> ->]. split; [|done].
  by destruct (tvar_env_init sig2).
Qed.

Lemma unwrap_rewrap t sig :
  jl_is_unionall t = false -> jl_unwrap_unionall (jl_rewrap_unionall t sig) = t.
Proof. intros Ht. induction sig; simpl; try (by destruct t). Qed.

Lemma mapM_total {A B} (f : A -> option B) (h : A -> B) (l : list A) :
  (forall x, x ∈ l -> f x = Some (h x)) -> mapM f l = Some (map h l).
Proof.
  induction l as [|a l IH]; intros H; simpl; [done|].
  rewrite H by left. simpl. rewrite IH; [done|].
  intros x Hx. apply H. by right.
Qed.

Lemma hint_of_try_signature sigbody env :
  hint_of (try_signature sigbody env) =
  match jl_instantiate_type_with sigbody env with
  | Some s =>
      if jl_has_concrete_subtype s && jl_is_concrete_type s then Some s else None
  | None => None
  end.
Proof.
  unfold try_signature.
  destruct (jl_instantiate_type_with sigbody env) as [s|]; [|done].
  destruct (jl_has_concrete_subtype s); simpl; [|done].
  by destruct (jl_is_concrete_type s).
Qed.



Lemma union_split_signatures_cross_product fuel sig :
  let params := parameters_of (jl_unwrap_unionall sig) in
  existsb abandons params = false ->
  1 <= length (union_radices params) <= 5 ->
  capacity (union_radices params) <= fuel ->
  union_split_signatures fuel sig =
  Some (map (fun p => jl_rewrap_unionall (jl_apply_tuple_type p) sig)
            (cross_product params)).
Proof.
  intros params Hab Hn Hfuel. unfold union_split_signatures. fold params.
  rewrite scan_parameters_spec, Hab. simpl.
  assert ((length (union_radices params) =? 0) = false) as ->
    by (apply Nat.eqb_neq; lia).
  assert ((6 <=? length (union_radices params)) = false) as ->
    by (apply Nat.leb_gt; lia).
  simpl.
  pose proof (union_radices_pos params) as Hpos.
  pose proof (union_loop_spec fuel params 0) as Hloop. simpl in Hloop.
  rewrite to_digits_zero in Hloop by done.
  pose proof (capacity_pos _ _ (valid_zero _ Hpos)) as Hcap.
  rewrite Hloop by lia. rewrite Nat.sub_0_r. done.
Qed.


(** Without a [UnionAll] wrapper around the signature the loop of
    [_compile_all_tvar_union] is not entered, so nothing is instantiated and
    nothing is hinted, whatever the combinations are. *)
Lemma compile_all_union_without_tvars fuel sig calls :
  jl_subtype_env_size sig = 0 ->
  _compile_all_union fuel sig = Some calls ->
  hinted calls = [].
Proof.
  intros Hn. unfold _compile_all_union.
  destruct (union_split_signatures fuel sig) as [sigs|] eqn:Es; [|done]. simpl.
  assert (Hall : forall m, m ∈ sigs -> jl_subtype_env_size m = 0).
  { revert Es. unfold union_split_signatures.
    destruct (scan_parameters _ 0) as [n|]; [|intros [= <-] m Hm; by inversion Hm].
    destruct ((n =? 0) || (6 <=? n)).
    - intros [= <-] m Hm. apply list_elem_of_singleton in Hm as ->. done.
    - destruct (union_loop _ _ _) as [ps|]; [|done]. intros [= <-] m Hm.
      apply list_elem_of_fmap in Hm as (p & -> & _).
      by destruct (tvar_env_init_rewrap (jl_apply_tuple_type p) sig eq_refl) as [_ ->]. }
  intros Hm.
  rewrite (mapM_total _ (fun m => (m, [])) sigs) in Hm.
  - injection Hm as <-. unfold hinted. clear. induction sigs; simpl; done.
  - intros m Hin. rewrite compile_all_tvar_union_no_tvars by auto. done.
Qed.

Lemma compile_all_tvar_union_enough fuel methsig :
  capacity (tvar_radices (tvar_env_init methsig).1) <= fuel ->
  is_Some (_compile_all_tvar_union fuel methsig).
Proof.
  intros H.
  destruct (compile_all_tvar_union_total methsig
              (fuel - capacity (tvar_radices (tvar_env_init methsig).1)))
    as (log & Hlog & _).
  replace (_ + (fuel - _)) with fuel in Hlog by lia. by exists log.
Qed.

(** With [enumeration_fuel sig] passes or more, [_compile_all_union]
    returns. *)
Lemma compile_all_union_total fuel sig :
  enumeration_fuel sig <= fuel -> is_Some (_compile_all_union fuel sig).
Proof.
  unfold enumeration_fuel. intros Hfuel.
  assert (Hcap : capacity (union_radices (parameters_of (jl_unwrap_unionall sig)))
                 <= fuel) by lia.
  set (params := parameters_of (jl_unwrap_unionall sig)) in *.
  assert (Hsome : forall sigs, union_split_signatures fuel sig = Some sigs ->
            Forall (fun m => tvar_radices (tvar_env_init m).1 =
                             tvar_radices (tvar_env_init sig).1) sigs ->
            is_Some (_compile_all_union fuel sig)).
  { intros sigs Hs Hall. unfold _compile_all_union. rewrite Hs. simpl.
    apply mapM_is_Some. eapply Forall_impl; [exact Hall|].
    intros m Hm. simpl.
    destruct (compile_all_tvar_union_enough fuel m) as [log ->]; [|done].
    rewrite Hm. lia. }
  destruct (existsb abandons params) eqn:Hab.
  - apply (Hsome []); [|constructor].
    unfold union_split_signatures. fold params. by rewrite scan_parameters_spec, Hab.
  - destruct (decide (1 <= length (union_radices params) <= 5)) as [Hn|Hn].
    + apply (Hsome _ (union_split_signatures_cross_product fuel sig Hab Hn Hcap)).
      apply Forall_forall. intros m Hm.
      apply list_elem_of_fmap in Hm as (p & -> & _).
      by destruct (tvar_env_init_rewrap (jl_apply_tuple_type p) sig eq_refl) as [-> _].
    + apply (Hsome [sig]); [|by constructor].
      unfold union_split_signatures. fold params.
      rewrite scan_parameters_spec, Hab. simpl.
      destruct (length (union_radices params) =? 0) eqn:E0; [done|].
      apply Nat.eqb_neq in E0.
      assert ((6 <=? length (union_radices params)) = true) as ->
        by (apply Nat.leb_le; lia).
      done.
Qed.

(** With [enumeration_fuel sig] passes or more both loops of the enumerator
    come to their end on [sig]. *)
Theorem enumerator_terminates sig k :
  is_Some (_compile_all_union (enumeration_fuel sig + k) sig).
Proof. apply compile_all_union_total. lia. Qed.

(** C7 (amended). A signature with a parameter that is the bottom type, or
    a datatype without free type variables that is concrete and not a kind,
    or a closed [Type{...}], is abandoned at once: [_compile_all_union]
    builds no combination, never calls [_compile_all_tvar_union] and hints
    nothing. *)
Theorem C7_abandoned_signature fuel sig :
  existsb abandons (parameters_of (jl_unwrap_unionall sig)) = true ->
  union_split_signatures fuel sig = Some [] /\
  _compile_all_union fuel sig = Some [].
Proof.
  intros H.
  assert (Hs : union_split_signatures fuel sig = Some []).
  { unfold union_split_signatures. by rewrite scan_parameters_spec, H. }
  split; [done|].
  unfold _compile_all_union. rewrite Hs. done.
Qed.



(** C9 (amended). [_compile_all_tvar_union] returns for every signature, and
    every binding it tries ends in one of four ways: the instantiation
    throws and the binding is skipped; the instantiated signature has no
    concrete subtype and is skipped; it has one but is not itself concrete
    and is not hinted; it is concrete and is passed to [jl_compile_hint]. *)
Theorem C9_attempt_outcomes methsig k :
  exists log,
    _compile_all_tvar_union
      (capacity (tvar_radices (tvar_env_init methsig).1) + k) methsig = Some log /\
    Forall (fun e =>
              match jl_instantiate_type_with (jl_unwrap_unionall methsig) e.1 with
              | None => e.2 = InstantiationFailed
              | Some sig =>
                  if negb (jl_has_concrete_subtype sig)
                  then e.2 = NoConcreteSubtype sig
                  else if jl_is_concrete_type sig then e.2 = Hinted sig
                       else e.2 = NotConcrete sig
              end) log /\
    hints_of_log log =
    omap (fun e =>
            match jl_instantiate_type_with (jl_unwrap_unionall methsig) e.1 with
            | Some sig =>
                if jl_has_concrete_subtype sig && jl_is_concrete_type sig
                then Some sig else None
            | None => None
            end) log.
Proof.
  destruct (compile_all_tvar_union_total methsig k) as (log & Hlog & Hall).
  exists log. split; [done|]. split.
  - eapply Forall_impl; [exact Hall|]. intros [env a]. simpl. intros ->.
    unfold try_signature.
    destruct (jl_instantiate_type_with _ env) as [s|]; [|done].
    destruct (jl_has_concrete_subtype s); simpl; [|done].
    by destruct (jl_is_concrete_type s).
  - clear Hlog. unfold hints_of_log.
    induction Hall as [|[env a] log Ha Hall IH]; cbn in *; [done|].
    rewrite IH, Ha, hint_of_try_signature. done.
Qed.

(** ** The selector *)

(** *** What the selector enqueues *)

Lemma do_compile_spec c : do_compile c = true <-> entry_selected c.
Proof.
  unfold do_compile, entry_selected.
  destruct c as [inv inf pre]; simpl.
  destruct inv; simpl; destruct inf as [| |flag cost]; simpl;
    try destruct flag; simpl;
    try destruct (Z.eqb_spec cost UINT16_MAX); try destruct pre; simpl;
    split; try done; try (intros _; split; [done|]; eauto; fail);
    try (intros [? _]; done);
    try (intros [_ [(c & [= <-] & ?)|[?|?]]]; done);
    try (intros [_ [(c & [= <- <-] & ?)|[?|?]]]; done);
    try (intros [_ [(c & ? & ?)|[?|?]]]; done).
  all: intros _; split; [done|]; left; eauto.
Qed.

Lemma enq_cache_spec l :
  enq_cache l = true <-> exists c, c ∈ l /\ entry_selected c.
Proof.
  induction l as [|c l IH]; simpl.
  - split; [done|]. intros (c & Hc & _). by inversion Hc.
  - destruct (do_compile c) eqn:Ec.
    + split; [|done]. intros _. exists c. split; [left|]. by apply do_compile_spec.
    + rewrite IH. split.
      * intros (c' & Hc' & Hs). exists c'. split; [by right|done].
      * intros (c' & Hc' & Hs). apply elem_of_cons in Hc' as [Heq|Hc'].
        -- subst c'. apply do_compile_spec in Hs. congruence.
        -- by exists c'.
Qed.

Lemma enq_specializations_elem x specs closure :
  x ∈ foldl (fun closure mi =>
               match mi with
               | Some mi => precompile_enq_specialization_ mi closure
               | None => closure
               end) closure specs <->
  x ∈ closure \/
  exists mi, Some mi ∈ specs /\ x = item_mi mi /\ enq_cache (cache mi) = true.
Proof.
  revert closure. induction specs as [|[mi|] specs IH]; intros closure; simpl.
  - split; [by left|]. intros [?|(mi & Hmi & _)]; [done|by inversion Hmi].
  - rewrite IH. unfold precompile_enq_specialization_.
    destruct (enq_cache (cache mi)) eqn:E.
    + rewrite elem_of_app, list_elem_of_singleton. split.
      * intros [[?|Hx]|(mi' & ? & ? & ?)]; [by left| |].
        -- right. exists mi. split; [left|done].
        -- right. exists mi'. split; [by right|done].
      * intros [?|(mi' & Hin & Hx & E')]; [by left; left|].
        apply elem_of_cons in Hin as [Heq|Hin].
        -- injection Heq as <-. by left; right.
        -- right. by exists mi'.
    + split.
      * intros [?|(mi' & ? & ? & ?)]; [by left|].
        right. exists mi'. split; [by right|done].
      * intros [?|(mi' & Hin & Hx & E')]; [by left|].
        apply elem_of_cons in Hin as [Heq|Hin].
        -- injection Heq as <-. congruence.
        -- right. by exists mi'.
  - rewrite IH. split.
    + intros [?|(mi' & ? & ? & ?)]; [by left|].
      right. exists mi'. split; [by right|done].
    + intros [?|(mi' & Hin & Hx & E')]; [by left|].
      apply elem_of_cons in Hin as [Heq|Hin]; [done|].
      right. by exists mi'.
Qed.

Lemma foldl_elem_mono {A B} (f : list A -> B -> list A) (l : list B) acc x :
  (forall acc b, x ∈ acc -> x ∈ f acc b) ->
  x ∈ acc -> x ∈ foldl f acc l.
Proof.
  intros Hf. revert acc. induction l as [|b l IH]; intros acc H; simpl; [done|].
  apply IH, Hf, H.
Qed.

Lemma foldl_elem_step {A B} (f : list A -> B -> list A) (l : list B) acc x b :
  (forall acc b, x ∈ acc -> x ∈ f acc b) ->
  b ∈ l -> (forall acc, x ∈ f acc b) -> x ∈ foldl f acc l.
Proof.
  intros Hf Hb Hx. revert acc. induction l as [|b' l IH]; intros acc; simpl.
  - by inversion Hb.
  - apply elem_of_cons in Hb as [->|Hb]; [|by apply IH].
    apply foldl_elem_mono; [done|apply Hx].
Qed.

Lemma enq_method_mono m closure x :
  x ∈ closure -> x ∈ precompile_enq_all_specializations__ m closure.
Proof.
  intros H. unfold precompile_enq_all_specializations__.
  assert (x ∈ (if (bool_decide (name m = "__init__"%string) ||
                   bool_decide (is_Some (ccallable m)))
                  && jl_is_dispatch_tupletype (sig m)
               then closure ++ [item_mi (jl_specializations_get_linfo m (sig m))]
               else foldl (fun closure mi =>
                             match mi with
                             | Some mi => precompile_enq_specialization_ mi closure
                             | None => closure
                             end) closure (specializations m))) as H'.
  { destruct (_ && _).
    - apply elem_of_app. by left.
    - apply enq_specializations_elem. by left. }
  destruct (ccallable m) as [[r t]|]; [|done].
  apply elem_of_app. by left.
Qed.

Lemma enq_mtable_mono mt env x :
  x ∈ env -> x ∈ precompile_enq_all_specializations_ mt env.
Proof.
  intros H. unfold precompile_enq_all_specializations_.
  apply foldl_elem_mono; [|done]. intros acc b. apply enq_method_mono.
Qed.

Lemma enq_mtable_elem mt env m x :
  m ∈ defs mt ->
  (forall closure, x ∈ precompile_enq_all_specializations__ m closure) ->
  x ∈ precompile_enq_all_specializations_ mt env.
Proof.
  intros Hm Hx. unfold precompile_enq_all_specializations_.
  eapply foldl_elem_step; [|exact Hm|exact Hx].
  intros acc b. apply enq_method_mono.
Qed.

Lemma worklist_found_elem worklist md mt m x :
  md ∈ worklist -> mt ∈ foreach_mtable_in_module md -> m ∈ defs mt ->
  (forall closure, x ∈ precompile_enq_all_specializations__ m closure) ->
  x ∈ worklist_found worklist.
Proof.
  intros Hmd Hmt Hm Hx. unfold worklist_found.
  eapply foldl_elem_step; [|exact Hmd|].
  - intros acc b Hacc. apply foldl_elem_mono; [|done].
    intros acc' mt'. apply enq_mtable_mono.
  - intros acc. eapply foldl_elem_step; [|exact Hmt|].
    + intros acc' mt'. apply enq_mtable_mono.
    + intros acc'. by eapply enq_mtable_elem.
Qed.

Lemma jl_precompile__keeps m x :
  x ∈ m ->
  match x with
  | item_mi mi =>
      Some (mi_addr mi) = unspecialized (def_method mi) \/
      jl_isa_compileable_sig (specTypes mi) (def_method mi) = true
  | item_svec _ _ => True
  end ->
  x ∈ jl_precompile_ m.
Proof.
  intros Hx Hkeep. unfold jl_precompile_.
  eapply foldl_elem_step; [|exact Hx|].
  - intros acc [mi|r t] Hacc.
    + destruct (if _ && _ then _ else _); [|done].
      apply elem_of_app. by left.
    + apply elem_of_app. by left.
  - intros acc. destruct x as [mi|r t].
    + assert ((negb (bool_decide (Some (mi_addr mi) = unspecialized (def_method mi))) &&
               negb (jl_isa_compileable_sig (specTypes mi) (def_method mi))) = false)
        as ->.
      { destruct Hkeep as [H|H].
        - by rewrite bool_decide_eq_true_2.
        - rewrite H. simpl. apply andb_false_r. }
      apply elem_of_app. right. by left.
    + apply elem_of_app. right. by left.
Qed.

(** C2. A method that does not take the forced branch has each of its
    specializations scanned: the specialization is pushed exactly when some
    code instance of its cache chain is not the constant-return target and
    has fully inferred source with the inlining cost [UINT16_MAX], or a
    non-null [invoke], or the [precompile] flag. *)
Theorem C2_enqueue_iff m closure mi :
  is_forced m = false ->
  (item_mi mi ∈ precompile_enq_all_specializations__ m closure <->
   item_mi mi ∈ closure \/
   (Some mi ∈ specializations m /\
    exists c, c ∈ cache mi /\ entry_selected c)).
Proof.
  unfold is_forced, precompile_enq_all_specializations__. intros ->.
  assert (Hsv : forall l : list item,
            (item_mi mi ∈ match ccallable m with
                          | Some (rettype, sigt) => l ++ [item_svec rettype sigt]
                          | None => l
                          end) <-> item_mi mi ∈ l).
  { intros l. destruct (ccallable m) as [[r t]|]; [|done].
    rewrite elem_of_app, list_elem_of_singleton. split; [|by left].
    by intros [?|?]. }
  rewrite Hsv, enq_specializations_elem. split.
  - intros [?|(mi' & Hin & [= <-] & E)]; [by left|].
    right. split; [done|]. by apply enq_cache_spec.
  - intros [?|[Hin Hc]]; [by left|].
    right. exists mi. split; [done|]. split; [done|]. by apply enq_cache_spec.
Qed.

Lemma enq_method_elem_iff m closure x :
  x ∈ precompile_enq_all_specializations__ m closure <->
  x ∈ closure \/ enqueued_by m x.
Proof.
  unfold precompile_enq_all_specializations__, enqueued_by.
  fold (is_forced m).
  assert (Hcc : forall l : list item,
            x ∈ match ccallable m with
                | Some (rettype, sigt) => l ++ [item_svec rettype sigt]
                | None => l
                end <->
            x ∈ l \/ exists rettype sigt,
                      ccallable m = Some (rettype, sigt) /\ x = item_svec rettype sigt).
  { intros l. destruct (ccallable m) as [[r t]|].
    - rewrite elem_of_app, list_elem_of_singleton. split.
      + intros [?| ->]; [by left|]. right. by exists r, t.
      + intros [?|(r' & t' & [= <- <-] & ->)]; [by left|by right].
    - split; [by left|]. intros [?|(r' & t' & ? & _)]; done. }
  rewrite Hcc. destruct (is_forced m).
  - rewrite elem_of_app, list_elem_of_singleton. split.
    + intros [[?| ->]|?]; [by left| |]; right; [by left|by right; right].
    + intros [?|[[_ ->]|[[? _]|?]]]; [by left; left|by left; right|done|by right].
  - rewrite enq_specializations_elem. split.
    + intros [[?|(mi & Hin & -> & Hc)]|?]; [by left| |by right; right; right].
      right. right. left. split; [done|]. exists mi.
      split; [done|]. split; [done|]. by apply enq_cache_spec.
    + intros [?|[[? _]|[[_ (mi & Hin & -> & Hc)]|?]]];
        [by left; left|done| |by right].
      left. right. exists mi. split; [done|]. split; [done|]. by apply enq_cache_spec.
Qed.

(** C3 (amended). For a module of the worklist and a method of one of its
    method tables that is named [__init__] or is [@ccallable]: when its
    signature is a dispatch tuple type, the specialization for its own
    signature is in the array the worklist scan builds, whatever its caches
    hold, and [jl_precompile_] keeps it when it is the unspecialized
    instance or its signature is compileable; when its signature is not a
    dispatch tuple type, the method is scanned like any other, a
    specialization being pushed exactly when its cache chain has an
    accepted code instance; and in both cases the [svec] of a [@ccallable]
    method is in the final array. *)
Theorem C3_forced_specializations worklist md mt m :
  md ∈ worklist -> mt ∈ foreach_mtable_in_module md -> m ∈ defs mt ->
  (name m = "__init__"%string \/ is_Some (ccallable m)) ->
  let mi := jl_specializations_get_linfo m (sig m) in
  (jl_is_dispatch_tupletype (sig m) = true ->
   item_mi mi ∈ worklist_found worklist /\
   (Some (mi_addr mi) = unspecialized (def_method mi) \/
    jl_isa_compileable_sig (specTypes mi) (def_method mi) = true ->
    exists compiled, jl_precompile_worklist (Some worklist) = Some compiled /\
                     item_mi mi ∈ compiled)) /\
  (jl_is_dispatch_tupletype (sig m) = false ->
   forall closure x,
     item_mi x ∈ precompile_enq_all_specializations__ m closure <->
     item_mi x ∈ closure \/
     (Some x ∈ specializations m /\
      exists c, c ∈ cache x /\ entry_selected c)) /\
  (forall rettype sigt, ccallable m = Some (rettype, sigt) ->
   exists compiled, jl_precompile_worklist (Some worklist) = Some compiled /\
                    item_svec rettype sigt ∈ compiled).
Proof.
  intros Hmd Hmt Hm Hname mi. split; [|split].
  - intros Hdisp.
    assert (Hfound : item_mi mi ∈ worklist_found worklist).
    { eapply worklist_found_elem; [exact Hmd|exact Hmt|exact Hm|].
      intros closure. apply enq_method_elem_iff. right. left.
      split; [|done]. unfold is_forced. rewrite Hdisp.
      destruct Hname as [H|H].
      - by rewrite (bool_decide_eq_true_2 _ H).
      - rewrite (bool_decide_eq_true_2 _ H). by rewrite orb_true_r. }
    split; [done|].
    intros Hkeep. eexists. split; [done|]. by apply jl_precompile__keeps.
  - intros Hdisp closure x.
    assert (Hunforced : is_forced m = false).
    { unfold is_forced. rewrite Hdisp. apply andb_false_r. }
    rewrite enq_method_elem_iff. unfold enqueued_by. rewrite Hunforced. split.
    + intros [?|[[? _]|[[_ (mi' & Hin & [= ->] & Hc)]|(r & t & _ & ?)]]];
        [by left|done|by right|done].
    + intros [?|[Hin Hc]]; [by left|].
      right. right. left. split; [done|]. by exists x.
  - intros r t Hcc. eexists. split; [done|].
    apply jl_precompile__keeps; [|done].
    eapply worklist_found_elem; [exact Hmd|exact Hmt|exact Hm|].
    intros closure. apply enq_method_elem_iff. right. right. right.
    by exists r, t.
Qed.

Lemma compile_all_defs_loop_hints fuel ms st st' h :
  compile_all_defs_loop fuel ms st = Some st' -> h ∈ st.1 -> h ∈ st'.1.
Proof.
  revert st. induction ms as [|m ms IH]; intros st; simpl.
  - by intros [= <-].
  - destruct (compile_all_defs_step fuel m st) as [st1|] eqn:E; [|done].
    intros Hloop Hh. apply (IH st1 Hloop).
    unfold compile_all_defs_step in E.
    destruct (jl_isa_compileable_sig (sig m) m).
    + injection E as <-. simpl. apply elem_of_app. by left.
    + destruct (_compile_all_union _ _) as [calls|]; [|done].
      destruct (jl_get_unspecialized m); injection E as <-; simpl;
        apply elem_of_app; by left.
Qed.

Lemma sweep_fuel_enough m :
  m ∈ allmeths -> enumeration_fuel (sig m) <= sweep_fuel.
Proof.
  unfold sweep_fuel. generalize allmeths. intros l.
  induction l as [|m' l IH]; intros Hm; simpl.
  - by inversion Hm.
  - apply elem_of_cons in Hm as [->|Hm]; [lia|]. specialize (IH Hm). lia.
Qed.

Lemma compile_all_defs_loop_spec fuel ms st :
  (forall m, m ∈ ms -> enumeration_fuel (sig m) <= fuel) ->
  exists hints,
    compile_all_defs_loop fuel ms st =
    Some (hints,
          st.2 ++ omap (fun m => if jl_isa_compileable_sig (sig m) m then None
                                 else item_mi <$> jl_get_unspecialized m) ms) /\
    forall m, m ∈ ms -> jl_isa_compileable_sig (sig m) m = true ->
              sig m ∈ hints.
Proof.
  revert st. induction ms as [|m ms IH]; intros st Hfuel.
  - exists st.1. cbn. rewrite app_nil_r. split; [by destruct st|].
    intros m Hm. by inversion Hm.
  - cbn [compile_all_defs_loop]. unfold compile_all_defs_step.
    destruct (jl_isa_compileable_sig (sig m) m) eqn:Ec.
    + destruct (IH (st.1 ++ [sig m], st.2)) as (hints & Hloop & Hh).
      { intros m' Hm'. apply Hfuel. by right. }
      exists hints. cbn. rewrite Ec. split; [done|].
      intros m' Hm' Hc'. apply elem_of_cons in Hm' as [->|Hm']; [|by apply Hh].
      apply (compile_all_defs_loop_hints _ _ _ _ (sig m) Hloop).
      simpl. apply elem_of_app. right. left.
    + destruct (compile_all_union_total fuel (sig m)) as [calls Hcalls].
      { apply Hfuel. left. }
      rewrite Hcalls.
      destruct (jl_get_unspecialized m) as [u|] eqn:Eu.
      * destruct (IH (st.1 ++ hinted calls, st.2 ++ [item_mi u])) as (hints & Hloop & Hh).
        { intros m' Hm'. apply Hfuel. by right. }
        exists hints. cbn. rewrite Ec, Eu. cbn. simpl in Hloop.
        rewrite <- app_assoc in Hloop. split; [done|].
        intros m' Hm' Hc'. apply elem_of_cons in Hm' as [->|Hm']; [congruence|by apply Hh].
      * destruct (IH (st.1 ++ hinted calls, st.2)) as (hints & Hloop & Hh).
        { intros m' Hm'. apply Hfuel. by right. }
        exists hints. cbn. rewrite Ec, Eu. cbn. split; [done|].
        intros m' Hm' Hc'. apply elem_of_cons in Hm' as [->|Hm']; [congruence|by apply Hh].
Qed.

(** C6 (amended). [jl_compile_all_defs] returns, and it pushes onto [mis]
    the unspecialized fallback of exactly those methods with source whose
    signature is not compileable as it stands (and for which
    [jl_get_unspecialized] is not [NULL]), in order; a method whose
    signature is compileable only has that signature hinted. *)
Theorem C6_generic_fallback k mis :
  exists hints,
    jl_compile_all_defs (sweep_fuel + k) mis =
    Some (hints,
          mis ++ omap (fun m => if jl_isa_compileable_sig (sig m) m then None
                                else item_mi <$> jl_get_unspecialized m)
                      allmeths) /\
    forall m, m ∈ allmeths -> jl_isa_compileable_sig (sig m) m = true ->
              sig m ∈ hints.
Proof.
  unfold jl_compile_all_defs.
  apply (compile_all_defs_loop_spec (sweep_fuel + k) allmeths ([], mis)).
  intros m Hm. pose proof (sweep_fuel_enough m Hm). lia.
Qed.

(** ** The serializer *)

(** *** Buffers, fields and the block *)

Lemma length_le_bytes n v : length (le_bytes n v) = n.
Proof. revert v. induction n as [|n IH]; intros v; simpl; [done|]. by rewrite IH. Qed.

Lemma le_value_le_bytes n v :
  (0 <= v < 256 ^ Z.of_nat n)%Z -> le_value (le_bytes n v) = v.
Proof.
  revert v. induction n as [|n IH]; intros v Hv.
  - simpl in *. lia.
  - cbn [le_bytes le_value]. rewrite IH.
    + pose proof (Z.div_mod v 256). lia.
    + rewrite Nat2Z.inj_succ, Z.pow_succ_r in Hv by lia.
      split; [apply Z.div_pos; lia|]. apply Z.div_lt_upper_bound; lia.
Qed.

Lemma le_value_le_bytes_mod n v :
  le_value (le_bytes n v) = (v mod 256 ^ Z.of_nat n)%Z.
Proof.
  revert v. induction n as [|n IH]; intros v.
  - simpl. by rewrite Z.mod_1_r.
  - cbn [le_bytes le_value]. rewrite IH.
    rewrite Nat2Z.inj_succ, Z.pow_succ_r by lia.
    rewrite Z.rem_mul_r by lia. lia.
Qed.

Lemma patch_at_end l d : patch_at (length l) d l = l ++ d.
Proof.
  unfold patch_at. rewrite take_ge by lia. rewrite drop_ge by lia.
  by rewrite app_nil_r.
Qed.

Lemma patch_at_middle pre d0 d rest :
  length d = length d0 ->
  patch_at (length pre) d (pre ++ d0 ++ rest) = pre ++ d ++ rest.
Proof.
  intros Hlen. unfold patch_at.
  rewrite take_app_length. f_equal. f_equal.
  rewrite drop_app_ge by lia.
  replace (length pre + length d - length pre) with (length d0) by lia.
  by rewrite drop_app_length.
Qed.

Lemma length_patch_at pos d l :
  pos + length d <= length l -> length (patch_at pos d l) = length l.
Proof.
  intros H. unfold patch_at. rewrite !length_app, length_take, length_drop. lia.
Qed.

Lemma lookup_patch_at pos d l i :
  pos <= length l ->
  patch_at pos d l !! i =
  if decide (i < pos) then l !! i
  else if decide (i < pos + length d) then d !! (i - pos)
       else l !! i.
Proof.
  intros Hpos. unfold patch_at.
  destruct (decide (i < pos)).
  - rewrite lookup_app_l by (rewrite length_take; lia).
    by rewrite lookup_take_lt by lia.
  - rewrite lookup_app_r by (rewrite length_take; lia).
    rewrite length_take, Nat.min_l by lia.
    destruct (decide (i < pos + length d)).
    + by rewrite lookup_app_l by lia.
    + rewrite lookup_app_r by lia. rewrite lookup_drop. f_equal. lia.
Qed.

Lemma slice_ext pos n l1 l2 :
  (forall i, pos <= i < pos + n -> l1 !! i = l2 !! i) ->
  slice pos n l1 = slice pos n l2.
Proof.
  intros H. unfold slice. apply list_eq. intros i.
  destruct (decide (i < n)).
  - rewrite !lookup_take_lt, !lookup_drop by done. apply H. lia.
  - by rewrite !lookup_take_ge by lia.
Qed.

Lemma slice_at pre d rest pos n :
  pos = length pre -> n = length d -> slice pos n (pre ++ d ++ rest) = d.
Proof.
  intros -> ->. unfold slice. by rewrite drop_app_length, take_app_length.
Qed.

Lemma slice_patch_at_same pos n d l :
  n = length d -> pos <= length l -> slice pos n (patch_at pos d l) = d.
Proof.
  intros -> H. unfold patch_at. apply slice_at; [|done].
  rewrite length_take. lia.
Qed.

Lemma slice_patch_at_other pos d l a n :
  pos <= length l -> (a + n <= pos \/ pos + length d <= a) ->
  slice a n (patch_at pos d l) = slice a n l.
Proof.
  intros Hpos Hdis. apply slice_ext. intros i Hi.
  rewrite lookup_patch_at by done.
  destruct (decide (i < pos)); [done|].
  destruct (decide (i < pos + length d)); [lia|done].
Qed.

Lemma slice_app_l a n l k :
  a + n <= length l -> slice a n (l ++ k) = slice a n l.
Proof.
  intros H. apply slice_ext. intros i Hi. by rewrite lookup_app_l by lia.
Qed.

Lemma ios_write_at_end b d :
  ios_write {| buf := b; bpos := length b |} d =
  {| buf := b ++ d; bpos := length (b ++ d) |}.
Proof. unfold ios_write. cbn [buf bpos]. by rewrite patch_at_end, length_app. Qed.

Lemma write_dependency_at_end b d :
  write_dependency {| buf := b; bpos := length b |} d =
  {| buf := b ++ concat (map (fun pt => srctext_record pt.1 pt.2)
                             (embedded_files [d]));
     bpos := length (b ++ concat (map (fun pt => srctext_record pt.1 pt.2)
                                      (embedded_files [d]))) |}.
Proof.
  unfold write_dependency, embedded_files. cbn [omap list_omap].
  assert (Hid : {| buf := b; bpos := length b |} =
                {| buf := b ++ []; bpos := length (b ++ []) |})
    by (by rewrite app_nil_r).
  destruct (bool_decide (depmod d <> jl_main_module)); [|exact Hid].
  match goal with |- context [Z.eqb ?x ?y] => destruct (Z.eqb x y) end; [exact Hid|].
  destruct (file_contents (c_string (abspath d))) as [text|]; [|exact Hid].
  cbn [fmap option_fmap option_map map concat srctext_record fst snd].
  unfold write_int32, write_uint64.
  rewrite !ios_write_at_end.
  unfold ios_pos. cbn [bpos].
  set (pre := (b ++ le_bytes 4 (Z.of_nat (length (abspath d)))) ++ abspath d).
  unfold ios_seek. cbn [buf].
  destruct (decide (length pre <= length ((pre ++ le_bytes 8 0) ++ text))) as [_|Hn];
    [|rewrite !length_app in Hn; lia].
  unfold ios_write, ios_seek_end. cbn [buf bpos].
  rewrite <- (app_assoc pre), patch_at_middle by (by rewrite !length_le_bytes).
  rewrite app_nil_r. unfold pre. rewrite <- !app_assoc. done.
Qed.

Lemma write_dependencies_at_end deps : forall b,
  foldl write_dependency {| buf := b; bpos := length b |} deps =
  {| buf := b ++ concat (map (fun pt => srctext_record pt.1 pt.2)
                             (embedded_files deps));
     bpos := length (b ++ concat (map (fun pt => srctext_record pt.1 pt.2)
                                      (embedded_files deps))) |}.
Proof.
  induction deps as [|d deps IH]; intros b.
  - cbn. by rewrite app_nil_r.
  - cbn [foldl]. rewrite write_dependency_at_end, IH.
    assert (embedded_files (d :: deps) =
            embedded_files [d] ++ embedded_files deps) as ->.
    { unfold embedded_files. cbn. by destruct (if bool_decide _ then _ else _). }
    rewrite map_app, concat_app, <- app_assoc. done.
Qed.

Lemma write_srctext_layout f deps srctextpos :
  srctextpos + 8 <= length (buf f) ->
  write_srctext f (Some deps) srctextpos =
  {| buf := patch_at srctextpos (le_bytes 8 (Z.of_nat (bpos f))) (buf f) ++
            srctext_block (embedded_files deps);
     bpos := length (patch_at srctextpos (le_bytes 8 (Z.of_nat (bpos f))) (buf f) ++
                     srctext_block (embedded_files deps)) |}.
Proof.
  intros Hpos. unfold write_srctext, ios_pos.
  unfold ios_seek at 1.
  destruct (decide (srctextpos <= length (buf f))); [|lia].
  unfold write_uint64 at 1. unfold ios_seek_end.
  rewrite write_dependencies_at_end. cbn [ios_write buf bpos].
  unfold write_int32. rewrite ios_write_at_end.
  unfold srctext_block. rewrite <- !app_assoc. done.
Qed.

Lemma slice_at_end pre d pos n :
  pos = length pre -> n = length d -> slice pos n (pre ++ d) = d.
Proof.
  intros Hp Hn. rewrite <- (app_nil_r (pre ++ d)), <- app_assoc. by apply slice_at.
Qed.

Lemma read_srctext_block files : forall fuel pre,
  length files < fuel ->
  Forall (fun pt => 0 < length pt.1 /\ (Z.of_nat (length pt.1) < 2 ^ 32)%Z /\
                    (Z.of_nat (length pt.2) < 2 ^ 64)%Z) files ->
  read_srctext_from fuel (pre ++ srctext_block files) (length pre) =
  Some (files, length (pre ++ srctext_block files)).
Proof.
  induction files as [|[path text] files IH]; intros fuel pre Hfuel Hall.
  - destruct fuel as [|fuel]; [simpl in Hfuel; lia|].
    cbn [read_srctext_from]. unfold srctext_block. cbn [map concat app].
    rewrite length_app, length_le_bytes.
    destruct (decide (length pre + 4 <= length pre + 4)); [|lia].
    rewrite slice_at_end by (by rewrite ?length_le_bytes).
    rewrite le_value_le_bytes by (simpl; lia). simpl. done.
  - destruct fuel as [|fuel]; [simpl in Hfuel; lia|].
    inversion Hall as [|? ? (Hp0 & Hp & Ht) Hall']; subst. simpl in Hp0, Hp, Ht.
    cbn [read_srctext_from].
    assert (Hblock : srctext_block ((path, text) :: files) =
              le_bytes 4 (Z.of_nat (length path)) ++ path ++
              le_bytes 8 (Z.of_nat (length text)) ++ text ++ srctext_block files).
    { unfold srctext_block, srctext_record. cbn. by rewrite <- !app_assoc. }
    rewrite Hblock.
    set (l := pre ++ _).
    assert (Hlen : length l = length pre + 4 + length path + 8 + length text +
                              length (srctext_block files)).
    { unfold l. rewrite !length_app, !length_le_bytes. lia. }
    destruct (decide (length pre + 4 <= length l)); [|lia].
    assert (Hs1 : slice (length pre) 4 l = le_bytes 4 (Z.of_nat (length path))).
    { unfold l. apply slice_at; [done|by rewrite length_le_bytes]. }
    rewrite Hs1, le_value_le_bytes, Nat2Z.id by (simpl; lia).
    destruct (decide (length path = 0)); [lia|].
    destruct (decide (length pre + 4 + length path + 8 <= length l)); [|lia].
    assert (Hs2 : slice (length pre + 4) (length path) l = path).
    { unfold l. rewrite (app_assoc pre). apply slice_at; [|done].
      by rewrite length_app, length_le_bytes. }
    assert (Hs3 : slice (length pre + 4 + length path) 8 l =
                  le_bytes 8 (Z.of_nat (length text))).
    { unfold l. rewrite (app_assoc pre), (app_assoc (pre ++ _)).
      apply slice_at; [|by rewrite length_le_bytes].
      by rewrite !length_app, length_le_bytes. }
    rewrite Hs2, Hs3, le_value_le_bytes, Nat2Z.id by (simpl; lia).
    destruct (decide (length pre + 4 + length path + 8 + length text <= length l)); [|lia].
    assert (Hs4 : slice (length pre + 4 + length path + 8) (length text) l = text).
    { unfold l. rewrite (app_assoc pre), (app_assoc (pre ++ _)), (app_assoc ((pre ++ _) ++ _)).
      apply slice_at; [|done].
      by rewrite !length_app, !length_le_bytes. }
    rewrite Hs4.
    assert (Hl : l = (pre ++ le_bytes 4 (Z.of_nat (length path)) ++ path ++
                      le_bytes 8 (Z.of_nat (length text)) ++ text) ++ srctext_block files).
    { unfold l. by rewrite <- !app_assoc. }
    assert (Hpos : length pre + 4 + length path + 8 + length text =
                   length (pre ++ le_bytes 4 (Z.of_nat (length path)) ++ path ++
                      le_bytes 8 (Z.of_nat (length text)) ++ text)).
    { rewrite !length_app, !length_le_bytes. lia. }
    rewrite Hpos, Hl, IH by (simpl in Hfuel; try lia; done). done.
Qed.

Lemma embedded_files_nonempty deps :
  Forall (fun pt : list byte * list byte => 0 < length pt.1) (embedded_files deps).
Proof.
  unfold embedded_files. induction deps as [|d deps IH]; cbn; [constructor|].
  destruct (bool_decide (depmod d <> jl_main_module)); [|done].
  destruct (abspath d) as [|c path] eqn:Ep; cbn; [done|].
  destruct (c =? 0)%Z; [done|].
  destruct (file_contents _); cbn; [|done].
  constructor; [simpl; lia|done].
Qed.

Lemma length_srctext_block files : length files < length (srctext_block files).
Proof.
  unfold srctext_block. rewrite length_app, length_le_bytes.
  induction files as [|[path text] files IH]; [simpl; lia|].
  cbn [map concat fst snd]. rewrite length_app. unfold srctext_record at 1.
  rewrite !length_app, !length_le_bytes. cbn [length]. lia.
Qed.

Lemma ios_seek_ok s pos :
  pos <= length (buf s) -> ios_seek s pos = {| buf := buf s; bpos := pos |}.
Proof. intros H. unfold ios_seek. by destruct (decide (pos <= length (buf s))). Qed.

Lemma write_uint64_eq s v :
  write_uint64 s v =
  {| buf := patch_at (bpos s) (le_bytes 8 v) (buf s); bpos := bpos s + 8 |}.
Proof. unfold write_uint64, ios_write. by rewrite length_le_bytes. Qed.

(** The stream [write_srctext] is called on by [patch_header]. *)
Lemma patch_header_unfold s udeps srctextpos checksumpos datastartpos :
  checksumpos + 8 <= length (buf s) ->
  srctextpos + 8 <= length (buf s) ->
  patch_header s udeps srctextpos checksumpos datastartpos =
  write_srctext
    {| buf := patch_at srctextpos (le_bytes 8 (Z.of_nat (bpos s)))
                (patch_at checksumpos
                   (le_bytes 8
                      (Z.lor (jl_crc32c 0 (drop datastartpos (buf s))
                                ((Z.of_nat (bpos s) - Z.of_nat datastartpos)
                                 mod 2 ^ 64) mod 2 ^ 32)
                             (Z.shiftl 0xfafbfcfd 32)))
                   (buf s));
       bpos := srctextpos + 8 |}
    udeps srctextpos.
Proof.
  intros Hcp Hsp. unfold patch_header, ios_pos.
  rewrite (ios_seek_ok s checksumpos) by lia.
  rewrite (write_uint64_eq {| buf := buf s; bpos := checksumpos |}).
  cbn [buf bpos].
  rewrite ios_seek_ok
    by (cbn [buf]; rewrite length_patch_at; rewrite ?length_le_bytes; lia).
  rewrite write_uint64_eq. cbn [buf bpos]. done.
Qed.

Lemma checksum_word (c : Z) :
  let a := (c mod 2 ^ 32)%Z in
  Z.lor a (Z.shiftl 0xfafbfcfd 32) = (a + 0xfafbfcfd * 2 ^ 32)%Z.
Proof.
  intros a.
  assert (Ha : (0 <= a < 2 ^ 32)%Z) by (apply Z.mod_pos_bound; lia).
  assert (Hland : Z.land a (Z.shiftl 0xfafbfcfd 32) = 0%Z).
  { apply Z.bits_inj'. intros n Hn. rewrite Z.land_spec, Z.bits_0.
    destruct (Z.lt_ge_cases n 32).
    - rewrite (Z.shiftl_spec_low _ _ n) by lia. apply andb_false_r.
    - unfold a. rewrite Z.mod_pow2_bits_high by lia. done. }
  rewrite <- Z.lxor_lor by done.
  rewrite <- Z.add_nocarry_lxor by done.
  by rewrite Z.shiftl_mul_pow2 by lia.
Qed.


Lemma write_srctext_position_field f deps srctextpos :
  srctextpos + 8 <= length (buf f) ->
  bpos (write_srctext f (Some deps) srctextpos) =
    length (buf (write_srctext f (Some deps) srctextpos)) /\
  read_uint64 (buf (write_srctext f (Some deps) srctextpos)) srctextpos =
    (Z.of_nat (bpos f) mod 2 ^ 64)%Z.
Proof.
  intros Hpos. rewrite write_srctext_layout by done. cbn [buf bpos].
  split; [done|].
  set (pre := patch_at srctextpos (le_bytes 8 (Z.of_nat (bpos f))) (buf f)).
  assert (Hpre : length pre = length (buf f)).
  { unfold pre. apply length_patch_at. by rewrite length_le_bytes. }
  unfold read_uint64. rewrite slice_app_l by lia.
  unfold pre.
  rewrite slice_patch_at_same by (rewrite ?length_le_bytes; lia).
  apply le_value_le_bytes_mod.
Qed.

(** C4. With the path lengths and file sizes within the widths of their
    fields, [write_srctext] records the position it was called at in the
    field at [srctextpos], appends after the end of the stream one record
    [int32 path-length][path][uint64 size][text] for each dependency that
    is outside [Main], has a non-empty path and can be opened, and then
    [int32 0]; reading the block back from where it starts returns exactly
    those paths and texts and stops at the end of the stream. When the
    stream was at its end at the call, the recorded position is where the
    block starts. *)
Theorem C4_srctext_roundtrip f deps srctextpos :
  srctextpos + 8 <= length (buf f) ->
  Forall (fun pt : list byte * list byte =>
            (Z.of_nat (length pt.1) < 2 ^ 31)%Z /\
            (Z.of_nat (length pt.2) < 2 ^ 64)%Z) (embedded_files deps) ->
  let f' := write_srctext f (Some deps) srctextpos in
  buf f' = patch_at srctextpos (le_bytes 8 (Z.of_nat (bpos f))) (buf f) ++
           srctext_block (embedded_files deps) /\
  bpos f' = length (buf f') /\
  read_uint64 (buf f') srctextpos = (Z.of_nat (bpos f) mod 2 ^ 64)%Z /\
  read_srctext (buf f') (length (buf f)) =
    Some (embedded_files deps, length (buf f')) /\
  (bpos f = length (buf f) -> (Z.of_nat (length (buf f)) < 2 ^ 64)%Z ->
   read_srctext (buf f') (Z.to_nat (read_uint64 (buf f') srctextpos)) =
     Some (embedded_files deps, length (buf f'))).
Proof.
  intros Hpos Hsizes f'. unfold f'. rewrite write_srctext_layout by done.
  cbn [buf bpos].
  set (pre := patch_at srctextpos (le_bytes 8 (Z.of_nat (bpos f))) (buf f)).
  assert (Hpre : length pre = length (buf f)).
  { unfold pre. apply length_patch_at. by rewrite length_le_bytes. }
  assert (Hfield : read_uint64 (pre ++ srctext_block (embedded_files deps))
                     srctextpos = (Z.of_nat (bpos f) mod 2 ^ 64)%Z).
  { unfold read_uint64. rewrite slice_app_l by lia.
    unfold pre.
    rewrite slice_patch_at_same by (rewrite ?length_le_bytes; lia).
    apply le_value_le_bytes_mod. }
  assert (Hread : read_srctext (pre ++ srctext_block (embedded_files deps))
                    (length (buf f)) =
                  Some (embedded_files deps,
                        length (pre ++ srctext_block (embedded_files deps)))); cycle 1.
  { split; [done|]. split; [done|]. split; [done|]. split; [done|].
    intros Hend Hsmall. rewrite Hfield, Hend.
    rewrite Z.mod_small by lia. by rewrite Nat2Z.id. }
  - unfold read_srctext. rewrite <- Hpre. apply read_srctext_block.
    + rewrite length_app. pose proof (length_srctext_block (embedded_files deps)). lia.
    + pose proof (embedded_files_nonempty deps) as Hne.
      apply Forall_forall. intros pt Hin.
      rewrite Forall_forall in Hsizes, Hne.
      specialize (Hsizes pt Hin). specialize (Hne pt Hin). simpl in *. lia.
Qed.

(** When the two header fields lie before the data and do not overlap,
    the data start is not behind the position and a dependency list is
    supplied, the bytes [[datastartpos, dataendpos)] of the finished stream
    are those the stream held at the patch, [dataendpos] being the position
    then; and for a [jl_crc32c] that reads no more than [len] bytes, the
    field at [checksumpos] holds what [jl_crc32c] gives for these bytes of
    the finished stream, with [0xfafbfcfd] in its high 32 bits. *)
Theorem checksum_field_with_udeps s deps srctextpos checksumpos datastartpos :
  bpos s <= length (buf s) ->
  (Z.of_nat (bpos s) < 2 ^ 63)%Z ->
  (checksumpos + 8 <= srctextpos \/ srctextpos + 8 <= checksumpos) ->
  checksumpos + 8 <= datastartpos ->
  srctextpos + 8 <= datastartpos ->
  datastartpos <= bpos s ->
  (forall crc b1 b2 len,
     take (Z.to_nat len) b1 = take (Z.to_nat len) b2 ->
     jl_crc32c crc b1 len = jl_crc32c crc b2 len) ->
  let dataendpos := bpos s in
  let len := Z.of_nat (dataendpos - datastartpos) in
  let s' := patch_header s (Some deps) srctextpos checksumpos datastartpos in
  slice datastartpos (dataendpos - datastartpos) (buf s') =
    slice datastartpos (dataendpos - datastartpos) (buf s) /\
  read_uint64 (buf s') checksumpos =
    Z.lor (jl_crc32c 0 (drop datastartpos (buf s')) len mod 2 ^ 32)
          (Z.shiftl 0xfafbfcfd 32) /\
  Z.land (read_uint64 (buf s') checksumpos) (2 ^ 32 - 1) =
    (jl_crc32c 0 (drop datastartpos (buf s')) len mod 2 ^ 32)%Z.
Proof.
  intros Hinv Hmax Hdisj Hcp Hsp Hds Hlocal dataendpos len s'.
  assert (Hwrap : ((Z.of_nat dataendpos - Z.of_nat datastartpos) mod 2 ^ 64 = len)%Z).
  { unfold len, dataendpos in *. rewrite Nat2Z.inj_sub by done.
    apply Z.mod_small. lia. }
  set (crc := (jl_crc32c 0 (drop datastartpos (buf s)) len mod 2 ^ 32)%Z).
  set (word := Z.lor crc (Z.shiftl 0xfafbfcfd 32)).
  set (buf1 := patch_at checksumpos (le_bytes 8 word) (buf s)).
  set (buf2 := patch_at srctextpos (le_bytes 8 (Z.of_nat dataendpos)) buf1).
  assert (Hlen1 : length buf1 = length (buf s))
    by (apply length_patch_at; rewrite length_le_bytes; unfold dataendpos in *; lia).
  assert (Hlen2 : length buf2 = length (buf s)).
  { unfold buf2. rewrite length_patch_at; [done|].
    rewrite length_le_bytes. unfold dataendpos in *. lia. }
  assert (Hs' : s' = write_srctext {| buf := buf2; bpos := srctextpos + 8 |}
                       (Some deps) srctextpos).
  { unfold s'. rewrite patch_header_unfold by (unfold dataendpos in *; lia).
    fold dataendpos. rewrite Hwrap. done. }
  assert (Hbuf : buf s' =
            patch_at srctextpos (le_bytes 8 (Z.of_nat (srctextpos + 8))) buf2 ++
            srctext_block (embedded_files deps)).
  { rewrite Hs', write_srctext_layout; [done|]. cbn [buf]. unfold dataendpos in *. lia. }
  set (buf3 := patch_at srctextpos (le_bytes 8 (Z.of_nat (srctextpos + 8))) buf2) in *.
  assert (Hlen3 : length buf3 = length (buf s)).
  { unfold buf3. rewrite length_patch_at; [done|].
    rewrite length_le_bytes. unfold dataendpos in *. lia. }
  assert (Hdata : slice datastartpos (dataendpos - datastartpos) (buf s') =
                  slice datastartpos (dataendpos - datastartpos) (buf s)).
  { rewrite Hbuf.
    rewrite slice_app_l by (unfold dataendpos in *; lia).
    unfold buf3. rewrite slice_patch_at_other
      by (rewrite ?length_le_bytes; unfold dataendpos in *; lia).
    unfold buf2. rewrite slice_patch_at_other
      by (rewrite ?length_le_bytes; unfold dataendpos in *; lia).
    unfold buf1. rewrite slice_patch_at_other
      by (rewrite ?length_le_bytes; unfold dataendpos in *; lia).
    done. }
  assert (Hcrc : jl_crc32c 0 (drop datastartpos (buf s')) len =
                 jl_crc32c 0 (drop datastartpos (buf s)) len).
  { apply Hlocal. unfold len. rewrite Nat2Z.id. exact Hdata. }
  assert (Hw : word = (crc + 0xfafbfcfd * 2 ^ 32)%Z).
  { pose proof (checksum_word (jl_crc32c 0 (drop datastartpos (buf s)) len)) as Hw.
    cbv zeta in Hw. exact Hw. }
  assert (Hfield : read_uint64 (buf s') checksumpos = word).
  { unfold read_uint64. rewrite Hbuf.
    rewrite slice_app_l by (unfold dataendpos in *; lia).
    unfold buf3. rewrite slice_patch_at_other
      by (rewrite ?length_le_bytes; unfold dataendpos in *; lia).
    unfold buf2. rewrite slice_patch_at_other
      by (rewrite ?length_le_bytes; unfold dataendpos in *; lia).
    unfold buf1.
    rewrite slice_patch_at_same
      by (rewrite ?length_le_bytes; unfold dataendpos in *; lia).
    apply le_value_le_bytes. rewrite Hw.
    assert (0 <= crc < 2 ^ 32)%Z by (apply Z.mod_pos_bound; lia).
    change (Z.of_nat 8) with 8%Z. lia. }
  split; [done|]. rewrite Hcrc, Hfield. fold crc. split; [done|].
  rewrite Hw.
  change (2 ^ 32 - 1)%Z with (Z.ones 32). rewrite Z.land_ones by lia.
  rewrite Z.mod_add by lia. unfold crc. apply Z.mod_mod. lia.
Qed.

(** The field at [srctextpos], which [jl_write_compiler_output] fills with
    [dataendpos], is overwritten by [write_srctext] with the position the
    stream was left at, [srctextpos + 8]. *)
Lemma patch_header_srctext_field s deps srctextpos checksumpos datastartpos :
  bpos s <= length (buf s) ->
  checksumpos + 8 <= length (buf s) ->
  srctextpos + 8 <= length (buf s) ->
  read_uint64
    (buf (patch_header s (Some deps) srctextpos checksumpos datastartpos))
    srctextpos = (Z.of_nat (srctextpos + 8) mod 2 ^ 64)%Z.
Proof.
  intros Hinv Hcp Hsp.
  rewrite patch_header_unfold by lia.
  match goal with |- context [write_srctext ?f _ _] =>
    destruct (write_srctext_position_field f deps srctextpos) as [_ H]
  end.
  - cbn [buf]. rewrite !length_patch_at; rewrite ?length_le_bytes; try lia.
    rewrite length_patch_at; rewrite ?length_le_bytes; lia.
  - rewrite H. done.
Qed.

(** ** The driver *)

Lemma init_order_steps worklist : forall st order,
  jl_module_init_order st = Some order ->
  jl_module_init_order (foldl init_order_step st worklist) =
  Some (order ++ filter (fun m => is_Some (jl_get_global m "__init__")) worklist).
Proof.
  induction worklist as [|m worklist IH]; intros st order Hst; simpl.
  - by rewrite app_nil_r.
  - rewrite filter_cons.
    destruct (decide (is_Some (jl_get_global m "__init__"))) as [[f Hf]|Hno].
    + rewrite (IH _ (order ++ [m])).
      * by rewrite <- app_assoc.
      * unfold init_order_step. rewrite Hf, Hst.
        by destruct (jl_get_module_compile m).
    + apply IH. unfold init_order_step.
      destruct (jl_get_global m "__init__") as [f|] eqn:Hf; [|done].
      destruct Hno. by exists f.
Qed.

(** C10. When output is being generated and modules were initialized, the
    pass replaces [jl_module_init_order] by a new array holding, in their
    order, exactly the modules of the old one that have a global
    [__init__]; otherwise it leaves [jl_module_init_order] as it is. *)
Theorem C10_init_order_filtered jl_options st :
  jl_module_init_order (rebuild_init_order jl_options st).1 =
  if jl_generating_output jl_options then
    match jl_module_init_order st with
    | Some worklist =>
        Some (filter (fun m => is_Some (jl_get_global m "__init__")) worklist)
    | None => None
    end
  else jl_module_init_order st.
Proof.
  unfold rebuild_init_order.
  destruct (jl_generating_output jl_options); simpl; [|done].
  destruct (jl_module_init_order st) as [worklist|] eqn:E; simpl; [|done].
  by rewrite (init_order_steps worklist _ []).
Qed.

(** ** Further properties of the enumerator *)

(** *** The bindings the type-variable splitter tries *)

Lemma forallb_zero_value rs ds :
  forallb (Nat.eqb 0) ds = true -> value rs ds = 0.
Proof.
  revert ds. induction rs as [|l rs IH]; intros [|d ds]; simpl; try done.
  intros H. apply andb_true_iff in H as [Hd H]. apply Nat.eqb_eq in Hd as <-.
  rewrite IH by done. lia.
Qed.

Lemma getnext_bindings k : forall i epre erest pre ds,
  length epre = 2 * i -> length pre = i ->
  length erest = 2 * k ->
  valid (tvar_radices erest) ds ->
  erest = bindings_at (env_vars erest) ds ->
  exists i' erest',
    getnext k i (epre ++ erest) (pre ++ ds) =
    (i', epre ++ erest', pre ++ (counter_step (tvar_radices erest) ds true).1) /\
    length erest' = length erest /\
    tvar_radices erest' = tvar_radices erest /\
    env_vars erest' = env_vars erest /\
    (if (counter_step (tvar_radices erest) ds true).2 then i' = i + k
     else i' < i + k /\
          erest' = bindings_at (env_vars erest)
                               (counter_step (tvar_radices erest) ds true).1).
Proof.
  induction k as [|k IH]; intros i epre erest pre ds Hepre Hpre Herest Hval Hb.
  - destruct erest; [|discriminate]. inversion Hval; subst. simpl.
    exists (length pre), []. repeat split; try done; lia.
  - destruct erest as [|tv [|b erest]]; simpl in Herest; try lia.
    simpl tvar_radices in *.
    inversion Hval as [|j l ds' rs' Hj Hval']; subst.
    simpl in Hb. injection Hb as Hb0 Hb.
    assert (Hlk : (epre ++ tv :: b :: erest) !! (2 * length pre) = Some tv).
    { rewrite <- Hepre. apply list_lookup_middle. done. }
    assert (Hlki : (pre ++ j :: ds') !! length pre = Some j).
    { apply list_lookup_middle. done. }
    assert (Hinse : forall x, <[2 * length pre + 1 := x]> (epre ++ tv :: b :: erest)
                              = (epre ++ [tv; x]) ++ erest).
    { intros x. rewrite insert_app_r_alt by lia.
      replace (2 * length pre + 1 - length epre) with 1 by lia.
      simpl. by rewrite <- app_assoc. }
    assert (Hinsi : forall x : nat, <[length pre := x]> (pre ++ j :: ds') = (pre ++ [x]) ++ ds').
    { intros x. rewrite insert_app_r_alt by lia.
      rewrite Nat.sub_diag. simpl. by rewrite <- app_assoc. }
    assert (Hlen2 : forall x, length (epre ++ [tv; x]) = 2 * S (length pre)).
    { intros x. rewrite length_app. simpl. lia. }
    assert (Hlen1 : forall x : nat, length (pre ++ [x]) = S (length pre)).
    { intros x. rewrite length_app. simpl. lia. }
    rewrite counter_step_cons.
    rewrite !getnext_S. rewrite Hlk, Hlki. cbv zeta. simpl default.
    destruct (jl_is_uniontype (tvar_ub tv)) eqn:Eu.
    + change (S j =? S (jl_count_union_components (tvar_ub tv)))
        with (j =? jl_count_union_components (tvar_ub tv)).
      destruct (j =? jl_count_union_components (tvar_ub tv)) eqn:Ej.
      * rewrite Hinse, Hinsi.
        destruct (IH (S (length pre)) (epre ++ [tv; jl_bottom_type]) erest (pre ++ [0]) ds')
          as (i' & erest' & Heq & Hl & Hr & Hv & Hlt);
          [by rewrite Hlen2|by rewrite Hlen1|lia|done|done|].
        destruct (counter_step (tvar_radices erest) ds' true) as [ds2 c2] eqn:Ecs.
        simpl in Heq, Hlt |- *.
        exists i', (tv :: jl_bottom_type :: erest').
        rewrite Heq, <- !app_assoc. simpl.
        split; [done|]. split; [lia|]. split; [by rewrite Eu, Hr|].
        split; [by rewrite Hv|].
        destruct c2; [lia|]. destruct Hlt as [Hlt ->]. split; [lia|].
        by rewrite Eu.
      * rewrite counter_step_idle. simpl.
        eexists (length pre), (tv :: _ :: erest). rewrite Hinse, Hinsi, <- !app_assoc. simpl.
        split; [done|]. split; [done|]. split; [by rewrite Eu|].
        split; [done|]. split; [lia|]. rewrite Eu. by rewrite <- Hb.
    + assert (j = 0) as -> by lia.
      change (1 =? 1) with true. cbv iota.
      rewrite Hinse.
      assert (pre ++ 0 :: ds' = (pre ++ [0]) ++ ds') as -> by (by rewrite <- app_assoc).
      destruct (IH (S (length pre)) (epre ++ [tv; tv]) erest (pre ++ [0]) ds')
          as (i' & erest' & Heq & Hl & Hr & Hv & Hlt);
          [by rewrite Hlen2|by rewrite Hlen1|lia|done|done|].
      destruct (counter_step (tvar_radices erest) ds' true) as [ds2 c2] eqn:Ecs.
      pose proof (counter_step_spec _ _ _ _ Hval' Ecs) as Hs.
      simpl in Heq, Hlt |- *.
      exists i', (tv :: tv :: erest').
      rewrite Heq, <- !app_assoc. simpl.
      split; [done|]. split; [lia|]. split; [by rewrite Eu, Hr|].
      split; [by rewrite Hv|].
      destruct c2; [lia|]. destruct Hlt as [Hlt ->]. split; [lia|].
      rewrite Eu. destruct Hs as [_ Hs].
      destruct (forallb (Nat.eqb 0) ds2) eqn:Ez; [|done].
      rewrite (forallb_zero_value _ _ Ez) in Hs. lia.
Qed.

Lemma tvar_loop_enumerates fuel sigbody : forall n env idx,
  0 < n -> length env = 2 * n -> valid (tvar_radices env) idx ->
  env = bindings_at (env_vars env) idx ->
  capacity (tvar_radices env) - value (tvar_radices env) idx <= fuel ->
  tvar_loop fuel sigbody n env idx =
  Some (map (fun v =>
               let e := bindings_at (env_vars env) (to_digits (tvar_radices env) v) in
               (e, try_signature sigbody e))
            (seq (value (tvar_radices env) idx)
                 (capacity (tvar_radices env) - value (tvar_radices env) idx))).
Proof.
  induction fuel as [|fuel IH]; intros n env idx Hn Hlen Hval Hb Hfuel.
  - pose proof (value_lt_capacity _ _ Hval). lia.
  - simpl tvar_loop.
    destruct (getnext_bindings n 0 [] env [] idx)
      as (i' & env' & Heq & Hl & Hr & Hv & Hc); [done|done|done|done|done|].
    simpl in Heq. rewrite Heq.
    destruct (counter_step (tvar_radices env) idx true) as [idx' c] eqn:Ecs.
    pose proof (counter_step_spec _ _ _ _ Hval Ecs) as Hs.
    pose proof (value_lt_capacity _ _ Hval) as Hlt.
    assert (Hfirst : bindings_at (env_vars env)
                       (to_digits (tvar_radices env) (value (tvar_radices env) idx))
                     = env).
    { by rewrite to_digits_value. }
    simpl in Hc |- *. destruct c.
    + subst i'. rewrite Nat.ltb_irrefl. destruct Hs as [_ Hs].
      replace (capacity (tvar_radices env) - value (tvar_radices env) idx)
        with 1 by lia.
      simpl. by rewrite Hfirst.
    + destruct Hs as [Hval' Hs]. destruct Hc as [Hi' Henv'].
      assert ((i' <? n) = true) as -> by (apply Nat.ltb_lt; lia).
      pose proof (value_lt_capacity _ _ Hval') as Hlt'.
      rewrite (IH n env' idx'); [|done|lia|by rewrite Hr|by rewrite Hv|rewrite Hr; lia].
      rewrite Hr, Hv, Hs. simpl.
      replace (capacity (tvar_radices env) - value (tvar_radices env) idx)
        with (S (capacity (tvar_radices env) - S (value (tvar_radices env) idx)))
        by lia.
      simpl. by rewrite Hfirst.
Qed.

Lemma forallb_zero_replicate n : forallb (Nat.eqb 0) (replicate n 0) = true.
Proof. induction n as [|n IH]; simpl; [done|]. rewrite IH. reflexivity. Qed.

Lemma tvar_env_init_bindings methsig :
  (tvar_env_init methsig).1 =
  bindings_at (env_vars (tvar_env_init methsig).1)
              (replicate (jl_subtype_env_size methsig) 0).
Proof.
  induction methsig; simpl; try done.
  destruct (tvar_env_init methsig2) as [env sb]. simpl in *.
  rewrite <- IHmethsig2.
  rewrite forallb_zero_replicate.
  by destruct (jl_is_uniontype (tvar_ub methsig1)).
Qed.

(** The type-variable splitter is a counter over the bindings of the type
    variables. For a signature with at least one type variable it makes
    exactly one pass per digit vector of the radices (the alternatives of a
    union bound plus one, and one for any other variable), in counting
    order, and the pass for a digit vector instantiates the body with these
    bindings: a variable bounded by a union gets [Union{}] for the digit
    zero and otherwise the alternative its digit selects (as a new type
    variable when it is not concrete); a variable without a union bound
    gets [Union{}] as long as all the counters behind it are at zero, and
    itself afterwards. *)
Theorem tvar_union_enumerates_bindings fuel methsig :
  let env0 := (tvar_env_init methsig).1 in
  let rs := tvar_radices env0 in
  0 < jl_subtype_env_size methsig ->
  capacity rs <= fuel ->
  _compile_all_tvar_union fuel methsig =
  Some (map (fun v =>
               let env := bindings_at (env_vars env0) (to_digits rs v) in
               (env, try_signature (jl_unwrap_unionall methsig) env))
            (seq 0 (capacity rs))).
Proof.
  intros env0 rs Hn Hfuel. unfold _compile_all_tvar_union.
  destruct (tvar_env_init_spec methsig) as [Hlen Hbody].
  destruct (tvar_env_init_valid methsig) as [Hval Hzero].
  pose proof (tvar_env_init_bindings methsig) as Hb.
  subst env0 rs.
  destruct (tvar_env_init methsig) as [env sigbody]. simpl in *.
  assert ((0 <? jl_subtype_env_size methsig) = true) as -> by (by apply Nat.ltb_lt).
  rewrite (tvar_loop_enumerates fuel sigbody _ env _ Hn Hlen Hval Hb) by lia.
  rewrite Hzero, Nat.sub_0_r. by subst sigbody.
Qed.

(** *** What the enumerator and the sweep hint *)

Lemma elem_of_concat {A} (x : A) (ls : list (list A)) :
  x ∈ concat ls <-> exists l, x ∈ l /\ l ∈ ls.
Proof.
  induction ls as [|l ls IH]; simpl.
  - split; [intros H; by inversion H|]. intros (l & _ & H). by inversion H.
  - rewrite elem_of_app, IH. split.
    + intros [?|(l' & ? & ?)]; [exists l; split; [done|left]|].
      exists l'. split; [done|by right].
    + intros (l' & Hx & Hl). apply elem_of_cons in Hl as [-> |Hl]; [by left|].
      right. by exists l'.
Qed.

Lemma elem_of_List_filter {A} (f : A -> bool) (l : list A) (x : A) :
  x ∈ List.filter f l <-> f x = true /\ x ∈ l.
Proof.
  induction l as [|a l IH]; simpl.
  - split; [intros H; by inversion H|]. intros [_ H]. by inversion H.
  - destruct (f a) eqn:E.
    + rewrite !elem_of_cons, IH. split.
      * intros [-> |[? ?]]; [by split; [|left]|]. split; [done|by right].
      * intros [? [?|?]]; [by left|by right].
    + rewrite elem_of_cons, IH. split.
      * intros [? ?]. split; [done|by right].
      * intros [? [->|?]]; [congruence|done].
Qed.

Lemma tvar_loop_attempts fuel sigbody n : forall env idx log,
  tvar_loop fuel sigbody n env idx = Some log ->
  Forall (fun e => e.2 = try_signature sigbody e.1) log.
Proof.
  induction fuel as [|fuel IH]; intros env idx log; [done|].
  simpl. destruct (getnext n 0 env idx) as [[i env'] idx'].
  destruct (i <? n).
  - destruct (tvar_loop fuel sigbody n env' idx') as [rest|] eqn:E; [|done].
    simpl. intros [= <-]. constructor; [done|]. by eapply IH.
  - intros [= <-]. by repeat constructor.
Qed.

Lemma compile_all_tvar_union_attempts fuel methsig log :
  _compile_all_tvar_union fuel methsig = Some log ->
  Forall (fun e => e.2 = try_signature (jl_unwrap_unionall methsig) e.1) log.
Proof.
  unfold _compile_all_tvar_union.
  destruct (tvar_env_init_spec methsig) as [_ Hbody].
  destruct (tvar_env_init methsig) as [env sigbody]. simpl in Hbody. subst sigbody.
  destruct (0 <? jl_subtype_env_size methsig).
  - apply tvar_loop_attempts.
  - intros [= <-]. constructor.
Qed.

Lemma compile_all_union_hint_origin fuel sig calls s :
  _compile_all_union fuel sig = Some calls -> s ∈ hinted calls ->
  jl_has_concrete_subtype s = true /\ jl_is_concrete_type s = true /\
  exists methsig log env,
    (methsig, log) ∈ calls /\ (env, Hinted s) ∈ log /\
    jl_instantiate_type_with (jl_unwrap_unionall methsig) env = Some s.
Proof.
  unfold _compile_all_union.
  destruct (union_split_signatures fuel sig) as [sigs|]; [|done]. simpl.
  intros Hm Hs. apply mapM_Some in Hm.
  unfold hinted in Hs. apply elem_of_concat in Hs as (hs & Hs & Hhs).
  apply list_elem_of_fmap in Hhs as ([methsig log] & -> & Hc). simpl in Hs.
  unfold hints_of_log in Hs. apply list_elem_of_omap in Hs as ([env a] & He & Ha).
  simpl in Ha.
  assert (Hlog : _compile_all_tvar_union fuel methsig = Some log).
  { clear -Hm Hc. induction Hm as [|m c sigs calls Hmc Hm IH]; [by inversion Hc|].
    apply elem_of_cons in Hc as [<-|Hc]; [|by apply IH].
    destruct (_compile_all_tvar_union fuel m) as [l|] eqn:E; [|done].
    simpl in Hmc. by simplify_eq. }
  pose proof (compile_all_tvar_union_attempts _ _ _ Hlog) as Hall.
  rewrite Forall_forall in Hall. specialize (Hall _ He). simpl in Hall.
  assert (Hhinted : a = Hinted s) by (by destruct a; simplify_eq/=).
  rewrite Hhinted in Hall, He. symmetry in Hall.
  apply (f_equal hint_of) in Hall. rewrite hint_of_try_signature in Hall.
  destruct (jl_instantiate_type_with (jl_unwrap_unionall methsig) env) as [s'|] eqn:Ei;
    [|done].
  destruct (jl_has_concrete_subtype s') eqn:E1; [|done].
  destruct (jl_is_concrete_type s') eqn:E2; [|done].
  simpl in Hall. injection Hall as ->. split; [done|]. split; [done|].
  by exists methsig, log, env.
Qed.

Lemma compile_all_defs_loop_hints_exact fuel ms : forall st st',
  compile_all_defs_loop fuel ms st = Some st' ->
  exists per_method,
    st'.1 = st.1 ++ concat per_method /\
    Forall2 (fun m hs =>
               if jl_isa_compileable_sig (sig m) m then hs = [sig m]
               else exists calls,
                      _compile_all_union fuel (sig m) = Some calls /\
                      hs = hinted calls)
            ms per_method.
Proof.
  induction ms as [|m ms IH]; intros st st'; simpl.
  - intros [= <-]. exists []. simpl. by rewrite app_nil_r.
  - destruct (compile_all_defs_step fuel m st) as [st1|] eqn:E; [|done].
    intros Hloop. destruct (IH _ _ Hloop) as (per & Hper & Hall).
    unfold compile_all_defs_step in E.
    destruct (jl_isa_compileable_sig (sig m) m) eqn:Ec.
    + injection E as <-. simpl in Hper.
      exists ([sig m] :: per). simpl. rewrite Hper, <- app_assoc.
      split; [done|]. constructor; [by rewrite Ec|done].
    + destruct (_compile_all_union fuel (sig m)) as [calls|] eqn:Ecalls; [|done].
      assert (Hst1 : st1.1 = st.1 ++ hinted calls).
      { by destruct (jl_get_unspecialized m); injection E as <-. }
      exists (hinted calls :: per). simpl. rewrite Hper, Hst1, <- app_assoc.
      split; [done|]. constructor; [|done]. rewrite Ec. by exists calls.
Qed.

(** The signatures the full sweep passes to [jl_compile_hint] are, method
    by method in the order of the sweep, which visits exactly the methods
    with source of the reachable tables: for a method whose declared
    signature [jl_isa_compileable_sig] accepts, that signature and nothing
    else; for any other method, exactly the signatures the enumerator hints
    when run on the declared signature of that method, each of which is
    the instantiation, under a binding the splitter tried, of the body of a
    signature the enumerator passed to the splitter, has a concrete subtype
    and is a concrete type. *)
Theorem compile_all_defs_hints_sound fuel mis hints mis' :
  jl_compile_all_defs fuel mis = Some (hints, mis') ->
  (forall m, m ∈ allmeths <->
             source m = true /\ exists mt, mt ∈ reachable_mtables /\ m ∈ defs mt) /\
  exists per_method,
    hints = concat per_method /\
    Forall2 (fun m hs =>
               if jl_isa_compileable_sig (sig m) m then hs = [sig m]
               else exists calls,
                      _compile_all_union fuel (sig m) = Some calls /\
                      hs = hinted calls /\
                      forall s, s ∈ hs ->
                        jl_has_concrete_subtype s = true /\
                        jl_is_concrete_type s = true /\
                        exists methsig log env,
                          (methsig, log) ∈ calls /\ (env, Hinted s) ∈ log /\
                          jl_instantiate_type_with (jl_unwrap_unionall methsig) env
                            = Some s)
            allmeths per_method.
Proof.
  unfold jl_compile_all_defs. intros Hloop. split.
  - intros m. unfold allmeths. rewrite elem_of_List_filter, elem_of_concat. split.
    + intros [Hsrc (ds & Hm & Hds)]. split; [done|].
      apply list_elem_of_fmap in Hds as (mt & -> & Hmt). by exists mt.
    + intros [Hsrc (mt & Hmt & Hm)]. split; [done|]. exists (defs mt).
      split; [done|]. apply list_elem_of_fmap. by exists mt.
  - destruct (compile_all_defs_loop_hints_exact _ _ _ _ Hloop) as (per & Hper & Hall).
    exists per. split; [done|].
    eapply Forall2_impl; [exact Hall|]. intros m hs. simpl.
    destruct (jl_isa_compileable_sig (sig m) m); [done|].
    intros (calls & Hcalls & ->). exists calls. split; [done|]. split; [done|].
    intros s Hs. by eapply compile_all_union_hint_origin.
Qed.

(** In the full sweep the unspecialized fallback of a method with source
    whose signature is not compileable reaches the array handed to
    [jl_create_native]: the walk over the method tables only appends to the
    array of the sweep, and [jl_precompile_] keeps an instance that is the
    [unspecialized] instance of its method without looking at its
    signature. *)
Theorem sweep_fallback_compiled k m u :
  m ∈ allmeths ->
  jl_isa_compileable_sig (sig m) m = false ->
  jl_get_unspecialized m = Some u ->
  Some (mi_addr u) = unspecialized (def_method u) ->
  exists hints compiled,
    jl_precompile (sweep_fuel + k) true = Some (hints, compiled) /\
    item_mi u ∈ compiled.
Proof.
  intros Hm Hc Hu Hunspec. unfold jl_precompile, jl_compile_all_defs.
  destruct (compile_all_defs_loop_spec (sweep_fuel + k) allmeths ([], []))
    as (hints & -> & _).
  { intros m' Hm'. pose proof (sweep_fuel_enough m' Hm'). lia. }
  eexists _, _. split; [done|].
  apply jl_precompile__keeps; [|by left].
  apply foldl_elem_mono; [intros acc mt; apply enq_mtable_mono|].
  simpl. apply list_elem_of_omap. exists m. split; [done|].
  by rewrite Hc, Hu.
Qed.

(** *** The number of instantiations *)

Lemma compile_all_tvar_union_length fuel methsig :
  capacity (tvar_radices (tvar_env_init methsig).1) <= fuel ->
  exists log,
    _compile_all_tvar_union fuel methsig = Some log /\
    length log =
      if 0 <? jl_subtype_env_size methsig
      then capacity (tvar_radices (tvar_env_init methsig).1) else 0.
Proof.
  intros Hfuel. destruct (jl_subtype_env_size methsig) as [|n] eqn:En.
  - exists []. split; [by apply compile_all_tvar_union_no_tvars|done].
  - destruct (compile_all_tvar_union_spec fuel methsig) as (log & Hlog & Hlen & _);
      [lia|done|].
    eexists. split; [done|]. simpl. lia.
Qed.

(** The work of the enumerator on a signature it does not abandon: it
    calls the type-variable splitter once for a signature with no
    union-typed parameter or with six or more, and once per combination
    (the product of the alternative counts) otherwise; every such call
    instantiates the signature as many times as the product, over the type
    variables, of the alternatives of a union bound plus one, and not at all
    when there is no type variable. *)
Theorem enumerator_attempt_count fuel sig :
  let params := parameters_of (jl_unwrap_unionall sig) in
  let n := length (union_radices params) in
  existsb abandons params = false ->
  enumeration_fuel sig <= fuel ->
  exists calls,
    _compile_all_union fuel sig = Some calls /\
    length calls =
      (if (n =? 0) || (6 <=? n) then 1 else capacity (union_radices params)) /\
    Forall (fun c => length c.2 =
                     if 0 <? jl_subtype_env_size sig
                     then capacity (tvar_radices (tvar_env_init sig).1) else 0)
           calls.
Proof.
  intros params n Hab. unfold enumeration_fuel. fold params. intros Hfuel.
  set (attempts := if 0 <? jl_subtype_env_size sig
                   then capacity (tvar_radices (tvar_env_init sig).1) else 0).
  assert (Hcalls : forall sigs,
            union_split_signatures fuel sig = Some sigs ->
            Forall (fun m => tvar_env_init m = ((tvar_env_init sig).1, jl_unwrap_unionall m) /\
                             jl_subtype_env_size m = jl_subtype_env_size sig) sigs ->
            exists calls, _compile_all_union fuel sig = Some calls /\
                          length calls = length sigs /\
                          Forall (fun c => length c.2 = attempts) calls).
  { intros sigs Hs Hall. unfold _compile_all_union. rewrite Hs. simpl.
    clear Hs. induction Hall as [|m sigs [Hinit Hsz] Hall (calls & Hc & Hl & Hf)].
    - exists []. by repeat split.
    - destruct (compile_all_tvar_union_length fuel m) as (log & Hlog & Hlen).
      { rewrite Hinit. simpl. lia. }
      exists ((m, log) :: calls). cbn. rewrite Hlog. cbn. rewrite Hc. cbn.
      split; [done|]. split; [by rewrite Hl|].
      constructor; [|done]. simpl. rewrite Hlen, Hinit, Hsz. done. }
  destruct (decide (1 <= n <= 5)) as [Hn|Hn].
  - destruct (Hcalls _ (union_split_signatures_cross_product fuel sig Hab Hn
                          ltac:(fold params; lia)))
      as (calls & Hc & Hl & Hf).
    + apply Forall_forall. intros m Hm.
      apply list_elem_of_fmap in Hm as (p & -> & _).
      destruct (tvar_env_init_rewrap (jl_apply_tuple_type p) sig eq_refl) as [-> ->].
      by rewrite unwrap_rewrap.
    + exists calls. split; [done|]. split; [|done].
      rewrite Hl, length_map. unfold cross_product. rewrite length_map, length_seq.
      fold params.
      assert ((n =? 0) = false) as -> by (apply Nat.eqb_neq; lia).
      assert ((6 <=? n) = false) as -> by (apply Nat.leb_gt; lia).
      done.
  - assert (Hroute : (n =? 0) || (6 <=? n) = true).
    { destruct (n =? 0) eqn:E0; [done|]. apply Nat.eqb_neq in E0.
      simpl. apply Nat.leb_le. lia. }
    destruct (Hcalls [sig]) as (calls & Hc & Hl & Hf).
    + unfold union_split_signatures. fold params.
      rewrite scan_parameters_spec, Hab. simpl. fold n. by rewrite Hroute.
    + constructor; [|constructor]. split; [|done].
      destruct (tvar_env_init_spec sig) as [_ Hb].
      destruct (tvar_env_init sig); simpl in *; congruence.
    + exists calls. rewrite Hroute. done.
Qed.

(** ** Further properties of the selector *)

Lemma foldl_elem_iff {A B} (f : list A -> B -> list A) (P : B -> Prop)
    (l : list B) x :
  (forall acc b, x ∈ f acc b <-> x ∈ acc \/ P b) ->
  forall acc, x ∈ foldl f acc l <-> x ∈ acc \/ exists b, b ∈ l /\ P b.
Proof.
  intros Hf. induction l as [|b l IH]; intros acc; simpl.
  - split; [by left|]. intros [?|(b & Hb & _)]; [done|by inversion Hb].
  - rewrite IH, Hf. split.
    + intros [[?|?]|(b' & ? & ?)]; [by left| |].
      * right. exists b. split; [left|done].
      * right. exists b'. split; [by right|done].
    + intros [?|(b' & Hin & ?)]; [by left; left|].
      apply elem_of_cons in Hin as [-> |Hin]; [by left; right|].
      right. by exists b'.
Qed.

Lemma foldl_append {A B} (f : list A -> B -> list A) (g : B -> list A)
    (l : list B) :
  (forall acc b, f acc b = acc ++ g b) ->
  forall acc, foldl f acc l = acc ++ concat (map g l).
Proof.
  intros Hf. induction l as [|b l IH]; intros acc; simpl.
  - by rewrite app_nil_r.
  - by rewrite IH, Hf, <- app_assoc.
Qed.

Lemma enq_mtables_elem_iff tables acc x :
  x ∈ foldl (fun m mt => precompile_enq_all_specializations_ mt m) acc tables <->
  x ∈ acc \/ exists mt m, mt ∈ tables /\ m ∈ defs mt /\ enqueued_by m x.
Proof.
  rewrite (foldl_elem_iff _ (fun mt => exists m, m ∈ defs mt /\ enqueued_by m x)).
  - split; (intros [?|H]; [by left|right]).
    + destruct H as (mt & ? & m & ? & ?). by exists mt, m.
    + destruct H as (mt & m & ? & ? & ?). exists mt. split; [done|]. by exists m.
  - intros acc' mt. unfold precompile_enq_all_specializations_.
    apply (foldl_elem_iff (fun env m => precompile_enq_all_specializations__ m env)
                          (fun m => enqueued_by m x)).
    intros acc'' m. apply enq_method_elem_iff.
Qed.

(** The array of [jl_precompile_worklist] holds exactly what the methods of
    the tables of the worklist's modules make
    [precompile_enq_all_specializations__] push: nothing comes from a
    module outside the worklist, and no accepted specialization of a
    worklist module is left out. *)
Theorem worklist_found_iff worklist x :
  x ∈ worklist_found worklist <->
  exists md mt m,
    md ∈ worklist /\ mt ∈ foreach_mtable_in_module md /\ m ∈ defs mt /\
    enqueued_by m x.
Proof.
  unfold worklist_found.
  rewrite (foldl_elem_iff _
             (fun md => exists mt m, mt ∈ foreach_mtable_in_module md /\
                                     m ∈ defs mt /\ enqueued_by m x)).
  - split.
    + intros [H|(md & ? & mt & m & ? & ? & ?)]; [by inversion H|]. by exists md, mt, m.
    + intros (md & mt & m & ? & ? & ? & ?). right. exists md. split; [done|].
      by exists mt, m.
  - intros acc md. apply enq_mtables_elem_iff.
Qed.

Lemma enq_method_append m closure :
  precompile_enq_all_specializations__ m closure =
  closure ++ precompile_enq_all_specializations__ m [].
Proof.
  unfold precompile_enq_all_specializations__.
  set (g := fun mi : option jl_method_instance_t =>
              match mi with
              | Some mi => if enq_cache (cache mi) then [item_mi mi] else []
              | None => []
              end).
  assert (Hspecs : forall acc,
            foldl (fun closure mi =>
                     match mi with
                     | Some mi => precompile_enq_specialization_ mi closure
                     | None => closure
                     end) acc (specializations m) =
            acc ++ concat (map g (specializations m))).
  { apply foldl_append. intros acc [mi|]; simpl; [|by rewrite app_nil_r].
    unfold precompile_enq_specialization_.
    destruct (enq_cache (cache mi)); [done|by rewrite app_nil_r]. }
  rewrite !Hspecs.
  destruct (_ && _); destruct (ccallable m) as [[r t]|]; simpl;
    by rewrite ?app_nil_r, <- ?app_assoc.
Qed.

Lemma enq_mtable_append mt env :
  precompile_enq_all_specializations_ mt env =
  env ++ concat (map (fun m => precompile_enq_all_specializations__ m []) (defs mt)).
Proof.
  unfold precompile_enq_all_specializations_.
  apply (foldl_append (fun env m => precompile_enq_all_specializations__ m env)).
  intros acc m. apply enq_method_append.
Qed.

(** The selector only appends, and never looks at what the array already
    holds: the array of [jl_precompile_worklist] is the concatenation, in
    the order of the worklist, of its tables and of their methods, of what
    each method pushes on an empty array. An instance reached twice is
    pushed twice. *)
Theorem worklist_found_concat worklist :
  worklist_found worklist =
  concat (map (fun md =>
    concat (map (fun mt =>
      concat (map (fun m => precompile_enq_all_specializations__ m [])
                  (defs mt)))
      (foreach_mtable_in_module md)))
    worklist).
Proof.
  unfold worklist_found.
  rewrite (foldl_append _
             (fun md => concat (map (fun mt =>
                concat (map (fun m => precompile_enq_all_specializations__ m [])
                            (defs mt)))
                (foreach_mtable_in_module md)))); [done|].
  intros acc md.
  apply (foldl_append (fun m mt => precompile_enq_all_specializations_ mt m)).
  intros acc' mt. apply enq_mtable_append.
Qed.

Lemma length_omap_le {A B} (f : A -> option B) (l : list A) :
  length (omap f l) <= length l.
Proof. induction l as [|a l IH]; cbn; [done|]. destruct (f a); simpl; lia. Qed.

Lemma jl_precompile__omap m :
  jl_precompile_ m =
  omap (fun it =>
          match it with
          | item_mi mi =>
              item_mi <$>
                (if negb (bool_decide (Some (mi_addr mi) =
                                       unspecialized (def_method mi))) &&
                    negb (jl_isa_compileable_sig (specTypes mi) (def_method mi))
                 then jl_get_specialization1 (specTypes mi)
                 else Some mi)
          | item_svec _ _ => Some it
          end) m.
Proof.
  unfold jl_precompile_.
  set (h := fun it : item => _).
  assert (H : forall acc, foldl (fun m2 it =>
           match it with
           | item_mi mi =>
               match (if negb (bool_decide (Some (mi_addr mi) =
                                            unspecialized (def_method mi))) &&
                          negb (jl_isa_compileable_sig (specTypes mi) (def_method mi))
                      then jl_get_specialization1 (specTypes mi)
                      else Some mi) with
               | Some mi' => m2 ++ [item_mi mi']
               | None => m2
               end
           | item_svec _ _ => m2 ++ [it]
           end) acc m = acc ++ omap h m).
  { induction m as [|it m IH]; intros acc; cbn; [by rewrite app_nil_r|].
    rewrite IH. subst h. destruct it as [mi|r t]; cbn; [|by rewrite <- app_assoc].
    destruct (if _ && _ then _ else _); cbn; [by rewrite <- app_assoc|done]. }
  apply H.
Qed.

(** [jl_precompile_] hands on the array item by item and in order: a
    [ccallable] record is always kept; a method instance that is its
    method's unspecialized instance or whose signature is compileable for
    its method is kept as it is; any other is replaced by what
    [jl_get_specialization1] finds for its signature, and dropped when that
    is [NULL]. Nothing else reaches [jl_create_native], and the array never
    grows. *)
Theorem jl_precompile__iff m :
  (forall x, item_mi x ∈ jl_precompile_ m <->
     exists mi, item_mi mi ∈ m /\
       ((Some (mi_addr mi) = unspecialized (def_method mi) \/
         jl_isa_compileable_sig (specTypes mi) (def_method mi) = true) /\ x = mi \/
        (Some (mi_addr mi) <> unspecialized (def_method mi) /\
         jl_isa_compileable_sig (specTypes mi) (def_method mi) = false /\
         jl_get_specialization1 (specTypes mi) = Some x))) /\
  (forall rettype sigt,
     item_svec rettype sigt ∈ jl_precompile_ m <-> item_svec rettype sigt ∈ m) /\
  length (jl_precompile_ m) <= length m.
Proof.
  rewrite jl_precompile__omap. split; [|split].
  - intros x. rewrite list_elem_of_omap. split.
    + intros ([mi|r t] & Hin & Hx); [|done]. exists mi. split; [done|].
      destruct (bool_decide_reflect (Some (mi_addr mi) = unspecialized (def_method mi)))
        as [Hu|Hu]; simpl in Hx.
      * left. split; [by left|]. by injection Hx.
      * destruct (jl_isa_compileable_sig (specTypes mi) (def_method mi)) eqn:Ec;
          simpl in Hx.
        -- left. split; [by right|]. by injection Hx.
        -- right. split; [done|]. split; [done|].
           destruct (jl_get_specialization1 (specTypes mi)); [|done].
           by injection Hx as ->.
    + intros (mi & Hin & [[Hk ->]|(Hu & Hc & Hs)]); exists (item_mi mi);
        (split; [done|]).
      * destruct Hk as [Hu|Hc].
        -- by rewrite bool_decide_eq_true_2.
        -- rewrite Hc. by rewrite andb_false_r.
      * rewrite bool_decide_eq_false_2, Hc, Hs by done. done.
  - intros r t. rewrite list_elem_of_omap. split.
    + intros ([mi|r' t'] & Hin & Hx).
      * by destruct (if _ && _ then _ else _).
      * by injection Hx as -> ->.
    + intros Hin. by exists (item_svec r t).
  - apply length_omap_le.
Qed.

Lemma compile_all_defs_loop_items fuel ms : forall st st' x,
  compile_all_defs_loop fuel ms st = Some st' -> x ∈ st'.2 ->
  x ∈ st.2 \/ exists mi, x = item_mi mi.
Proof.
  induction ms as [|m ms IH]; intros st st' x; simpl.
  - intros [= <-]. by left.
  - destruct (compile_all_defs_step fuel m st) as [st1|] eqn:E; [|done].
    intros Hloop Hx. destruct (IH _ _ _ Hloop Hx) as [Hx1|?]; [|by right].
    unfold compile_all_defs_step in E.
    destruct (jl_isa_compileable_sig (sig m) m).
    + injection E as <-. by left.
    + destruct (_compile_all_union fuel (sig m)) as [calls|]; [|done].
      destruct (jl_get_unspecialized m) as [u|]; injection E as <-; simpl in Hx1.
      * apply elem_of_app in Hx1 as [?|Hx1]; [by left|].
        apply list_elem_of_singleton in Hx1 as ->. right. by exists u.
      * by left.
Qed.

(** In both modes of [jl_precompile], with or without the full sweep, the
    [ccallable] records in the array handed to [jl_create_native] are
    exactly those of the methods of the reachable tables, as the hints
    left them: the sweep adds none and [jl_precompile_] drops none. *)
Theorem jl_precompile_ccallable fuel all hints compiled rettype sigt :
  jl_precompile fuel all = Some (hints, compiled) ->
  (item_svec rettype sigt ∈ compiled <->
   exists mt m, mt ∈ mtables_after_hints hints /\ m ∈ defs mt /\
                ccallable m = Some (rettype, sigt)).
Proof.
  unfold jl_precompile.
  destruct (if all then jl_compile_all_defs fuel [] else Some ([], []))
    as [[hints0 mis]|] eqn:Esweep; [|done].
  intros [= <- <-].
  assert (Hmis : ~ item_svec rettype sigt ∈ mis).
  { destruct all.
    - intros Hin. unfold jl_compile_all_defs in Esweep.
      destruct (compile_all_defs_loop_items _ _ _ _ _ Esweep Hin) as [H|[mi H]];
        [by inversion H|done].
    - injection Esweep as <- <-. intros H. by inversion H. }
  rewrite jl_precompile__omap, list_elem_of_omap. split.
  - intros ([mi|r t] & Hin & Hx).
    + by destruct (if _ && _ then _ else _).
    + injection Hx as -> ->.
      apply enq_mtables_elem_iff in Hin as [?|(mt & m & Hmt & Hm & He)]; [done|].
      exists mt, m. split; [done|]. split; [done|].
      destruct He as [[_ ?]|[[_ (mi & _ & ? & _)]|(r & t & Hc & [= -> ->])]]; done.
  - intros (mt & m & Hmt & Hm & Hc). exists (item_svec rettype sigt).
    split; [|done]. apply enq_mtables_elem_iff. right. exists mt, m.
    split; [done|]. split; [done|]. right. right. by exists rettype, sigt.
Qed.

(** ** Further properties of the serializer *)

Lemma read_srctext_sentinel l pos :
  pos + 4 <= length l -> slice pos 4 l = le_bytes 4 0 ->
  read_srctext l pos = Some ([], pos + 4).
Proof.
  intros Hlen Hs. unfold read_srctext.
  destruct (length l) as [|fuel] eqn:E; [lia|].
  cbn [read_srctext_from]. rewrite Hs.
  destruct (decide (pos + 4 <= length l)); [|lia]. done.
Qed.

(** With [udeps == NULL], [write_srctext] writes the four zero bytes of the
    sentinel at the current position and nothing else: the bytes before the
    position, and with them a header field that lies there, are as they
    were, and a reader started at that position finds an empty block and
    stops four bytes later. *)
Theorem write_srctext_null f srctextpos :
  bpos f <= length (buf f) ->
  let f' := write_srctext f None srctextpos in
  bpos f' = bpos f + 4 /\
  (forall i, i < bpos f -> buf f' !! i = buf f !! i) /\
  (srctextpos + 8 <= bpos f ->
   read_uint64 (buf f') srctextpos = read_uint64 (buf f) srctextpos) /\
  read_srctext (buf f') (bpos f) = Some ([], bpos f + 4).
Proof.
  intros Hpos. cbv zeta. unfold write_srctext, write_int32, ios_write.
  cbn [buf bpos length le_bytes].
  set (d := [(0 mod 256)%Z; (0 / 256 mod 256)%Z; (0 / 256 / 256 mod 256)%Z;
             (0 / 256 / 256 / 256 mod 256)%Z]).
  assert (Hlen : bpos f + 4 <= length (patch_at (bpos f) d (buf f))).
  { unfold patch_at. rewrite !length_app, length_take. simpl. lia. }
  split; [done|]. split; [|split].
  - intros i Hi. rewrite lookup_patch_at by done.
    by destruct (decide (i < bpos f)).
  - intros Hsp. unfold read_uint64. f_equal.
    apply slice_patch_at_other; [done|]. left. lia.
  - apply read_srctext_sentinel; [done|]. by apply slice_patch_at_same.
Qed.

(** The header patch of [jl_write_compiler_output] changes, of the bytes
    the stream held, only the two eight-byte fields at [checksumpos] and
    [srctextpos]; it appends the source-text block after the old end of
    the stream, whatever the position was, and leaves the stream at its new
    end. *)
Theorem patch_header_frame s deps srctextpos checksumpos datastartpos :
  checksumpos + 8 <= length (buf s) ->
  srctextpos + 8 <= length (buf s) ->
  let s' := patch_header s (Some deps) srctextpos checksumpos datastartpos in
  (forall i, i < length (buf s) ->
     ~ (checksumpos <= i < checksumpos + 8) ->
     ~ (srctextpos <= i < srctextpos + 8) ->
     buf s' !! i = buf s !! i) /\
  drop (length (buf s)) (buf s') = srctext_block (embedded_files deps) /\
  length (buf s') = length (buf s) + length (srctext_block (embedded_files deps)) /\
  bpos s' = length (buf s').
Proof.
  intros Hcp Hsp. cbv zeta.
  rewrite patch_header_unfold by done.
  set (c := le_bytes 8 (Z.lor _ _)).
  set (p1 := patch_at checksumpos c (buf s)).
  assert (Hp1 : length p1 = length (buf s)).
  { apply length_patch_at. unfold c. by rewrite length_le_bytes. }
  set (p2 := patch_at srctextpos (le_bytes 8 (Z.of_nat (bpos s))) p1).
  assert (Hp2 : length p2 = length (buf s)).
  { unfold p2. rewrite length_patch_at; [done|]. rewrite length_le_bytes. lia. }
  rewrite write_srctext_layout by (cbn [buf]; lia). cbn [buf bpos].
  set (p3 := patch_at srctextpos (le_bytes 8 (Z.of_nat (srctextpos + 8))) p2).
  assert (Hp3 : length p3 = length (buf s)).
  { unfold p3. rewrite length_patch_at; [done|]. rewrite length_le_bytes. lia. }
  split; [|split; [|split]].
  - intros i Hi Hc Hs. rewrite lookup_app_l by lia.
    unfold p3. rewrite lookup_patch_at by lia.
    unfold p2. rewrite lookup_patch_at by lia.
    unfold p1. rewrite lookup_patch_at by lia.
    unfold c. rewrite !length_le_bytes.
    repeat (destruct (decide _)); try done; lia.
  - rewrite <- Hp3. by rewrite drop_app_length.
  - rewrite length_app. lia.
  - done.
Qed.

(** The header and the data do not depend on the source text: two
    dependency lists give the same bytes up to the old end of the stream,
    the checksum field included. The checksum is taken before the block is
    appended and does not cover it. *)
Theorem patch_header_independent_of_udeps s deps1 deps2
    srctextpos checksumpos datastartpos :
  checksumpos + 8 <= length (buf s) ->
  srctextpos + 8 <= length (buf s) ->
  take (length (buf s))
       (buf (patch_header s (Some deps1) srctextpos checksumpos datastartpos)) =
  take (length (buf s))
       (buf (patch_header s (Some deps2) srctextpos checksumpos datastartpos)).
Proof.
  intros Hcp Hsp. rewrite !patch_header_unfold by done.
  set (c := le_bytes 8 (Z.lor _ _)).
  set (p1 := patch_at checksumpos c (buf s)).
  assert (Hp1 : length p1 = length (buf s)).
  { apply length_patch_at. unfold c. by rewrite length_le_bytes. }
  set (p2 := patch_at srctextpos (le_bytes 8 (Z.of_nat (bpos s))) p1).
  assert (Hp2 : length p2 = length (buf s)).
  { unfold p2. rewrite length_patch_at; [done|]. rewrite length_le_bytes. lia. }
  rewrite !write_srctext_layout by (cbn [buf]; lia). cbn [buf bpos].
  set (p3 := patch_at srctextpos (le_bytes 8 (Z.of_nat (srctextpos + 8))) p2).
  assert (Hp3 : length p3 = length (buf s)).
  { unfold p3. rewrite length_patch_at; [done|]. rewrite length_le_bytes. lia. }
  rewrite <- Hp3. by rewrite !take_app_length.
Qed.

(** ** Further properties of the driver *)

Lemma init_order_steps_hints worklist : forall st,
  compile_hints (foldl init_order_step st worklist) =
    compile_hints st ++ omap init_hint worklist /\
  stderr (foldl init_order_step st worklist) = stderr st.
Proof.
  induction worklist as [|m worklist IH]; intros st; cbn.
  - by rewrite app_nil_r.
  - destruct (IH (init_order_step st m)) as [-> ->].
    unfold init_order_step, init_hint.
    destruct (jl_get_global m "__init__") as [f|]; [|done].
    destruct (jl_get_module_compile m); cbn; by rewrite <- ?app_assoc.
Qed.

(** The first pass of [jl_write_compiler_output] hints one signature for
    each module of the old initialization order that has a global
    [__init__] and whose compile setting is neither off nor min, in order,
    and none for any other module; it goes on with the old order as
    worklist, modules without [__init__] included; it prints nothing unless
    no module was defined; and it does nothing at all when no output is
    requested. *)
Theorem init_pass_hints jl_options st :
  let r := rebuild_init_order jl_options st in
  compile_hints r.1 =
    compile_hints st ++
    (if jl_generating_output jl_options
     then omap init_hint (default [] (jl_module_init_order st)) else []) /\
  r.2 = (if jl_generating_output jl_options
         then jl_module_init_order st else None) /\
  stderr r.1 =
    stderr st ++
    (if jl_generating_output jl_options && negb (bool_decide (is_Some (jl_module_init_order st)))
     then ["WARNING: --output requested, but no modules defined during run"%string]
     else []) /\
  (jl_generating_output jl_options = false -> r.1 = st).
Proof.
  cbv zeta. unfold rebuild_init_order.
  destruct (jl_generating_output jl_options); simpl.
  - destruct (jl_module_init_order st) as [worklist|] eqn:E; simpl.
    + destruct (init_order_steps_hints worklist
                  {| jl_module_init_order := Some [];
                     compile_hints := compile_hints st; stderr := stderr st |})
        as [-> ->].
      simpl. by rewrite app_nil_r.
    + by rewrite app_nil_r.
  - by rewrite !app_nil_r.
Qed.

(** In incremental mode with a native output, a module of the old
    initialization order without a global [__init__] is left out of the
    initialization order stored in the image, yet it stays in the worklist
    of the selection: what its methods enqueue is in the array of
    [jl_precompile_worklist]. *)
Theorem dropped_module_still_selected jl_options compile_enabled fuel st
    worklist md mt m x :
  outputo jl_options || outputbc jl_options || outputunoptbc jl_options ||
    outputasm jl_options = true ->
  incremental jl_options = true ->
  jl_module_init_order st = Some worklist ->
  md ∈ worklist ->
  jl_get_global md "__init__" = None ->
  mt ∈ foreach_mtable_in_module md -> m ∈ defs mt -> enqueued_by m x ->
  let r := rebuild_init_order jl_options st in
  (exists order, jl_module_init_order r.1 = Some order /\ md ∉ order) /\
  r.2 = Some worklist /\
  select_native_code jl_options compile_enabled fuel worklist =
    Some ([], Some (jl_precompile_ (worklist_found worklist))) /\
  x ∈ worklist_found worklist.
Proof.
  intros Hnative Hinc Horder Hmd Hinit Hmt Hm Hx. cbv zeta.
  assert (Hgen : jl_generating_output jl_options = true).
  { unfold jl_generating_output.
    destruct (outputo jl_options), (outputbc jl_options),
      (outputunoptbc jl_options), (outputji jl_options); simpl in *; done. }
  unfold rebuild_init_order, select_native_code. rewrite Hgen, Hnative, Hinc, Horder.
  simpl. split; [|split; [done|split; [done|]]].
  - eexists. split; [by apply (init_order_steps worklist _ [])|].
    simpl. rewrite list_elem_of_filter, Hinit. intros [[? ?] _]. done.
  - apply (worklist_found_elem worklist md mt m x); [done|done|done|].
    intros closure. apply enq_method_elem_iff. by right.
Qed.

End WithRuntime.

(** ** The theorems at sample inputs *)



(** C7 fails as stated: [DataType] is a concrete type and a kind, yet a
    signature with such a parameter is split, passed on and hinted. *)
Lemma C7_counterexample :
  jl_is_concrete_type DataType = true /\
  jl_is_kind DataType = true /\
  parameters_of (jl_unwrap_unionall sig_kind_and_union) = [DataType; U2] /\
  union_split_signatures closed_tuple_flags 2 sig_kind_and_union =
    Some [jl_unionall T (closed_tuple [DataType; Int64]);
          jl_unionall T (closed_tuple [DataType; Float64])] /\
  exists calls,
    _compile_all_union instantiate_closed closed_tuple_flags 2 sig_kind_and_union
      = Some calls /\
    hinted calls = [closed_tuple [DataType; Int64]; closed_tuple [DataType; Float64]].
Proof.
  do 4 (split; [reflexivity|]). eexists. split; reflexivity.
Qed.

Lemma C7_witness :
  existsb abandons (parameters_of (jl_unwrap_unionall sig_concrete_and_union)) = true /\
  union_split_signatures closed_tuple_flags 5 sig_concrete_and_union = Some [] /\
  _compile_all_union instantiate_closed closed_tuple_flags 5 sig_concrete_and_union
    = Some [].
Proof.
  split; [reflexivity|].
  apply (C7_abandoned_signature instantiate_closed closed_tuple_flags 5
           sig_concrete_and_union).
  reflexivity.
Defined.



(** C9 fails as stated: [Tuple{Integer}] is instantiated without error and
    has a concrete subtype, yet it is not handed to [jl_compile_hint],
    because it is not itself concrete. *)
Lemma C9_counterexample :
  instantiate_closed (jl_unwrap_unionall sig_abstract) [T; jl_bottom_type]
    = Some (closed_tuple [Integer]) /\
  jl_has_concrete_subtype (closed_tuple [Integer]) = true /\
  _compile_all_tvar_union instantiate_closed 1 sig_abstract =
    Some [([T; jl_bottom_type], NotConcrete (closed_tuple [Integer]))] /\
  hints_of_log [([T; jl_bottom_type], NotConcrete (closed_tuple [Integer]))] = [].
Proof. vm_compute. done. Qed.

Lemma C2_witness :
  is_forced f_generic_method = false /\
  item_mi mi_two_entries
    ∈ precompile_enq_all_specializations__ fresh_linfo f_generic_method [].
Proof.
  split; [reflexivity|].
  apply (C2_enqueue_iff fresh_linfo f_generic_method [] mi_two_entries);
    [reflexivity|].
  right. split; [right; left|].
  exists {| invoke := fptr_native 4096; inferred := inferred_nothing;
            precompile := false |}.
  split; [right; left|]. split; [discriminate|]. right. left. discriminate.
Defined.

(** C3 fails as stated: the initializer [__init__(args...)] of a module of
    the worklist is not selected when it has not run, because its signature
    is not a dispatch tuple type. *)
Lemma C3_counterexample :
  name init_vararg_method = "__init__"%string /\
  jl_is_dispatch_tupletype (sig init_vararg_method) = false /\
  worklist_found fresh_linfo (fun _ => [{| defs := [init_vararg_method] |}])
    [module_A] = [] /\
  jl_precompile_worklist fresh_linfo (fun _ => init_vararg_method)
    dispatch_tuple_is_compileable (fun _ => None)
    (fun _ => [{| defs := [init_vararg_method] |}]) (Some [module_A]) = Some [].
Proof. vm_compute. done. Qed.

Lemma C3_witness :
  ((name init_method = "__init__"%string /\
    jl_is_dispatch_tupletype (sig init_method) = true) /\
   item_mi (fresh_linfo init_method (sig init_method))
     ∈ worklist_found fresh_linfo (fun _ => [{| defs := [init_method] |}])
         [module_A] /\
   exists compiled,
     jl_precompile_worklist fresh_linfo (fun _ => init_method)
       dispatch_tuple_is_compileable (fun _ => None)
       (fun _ => [{| defs := [init_method] |}]) (Some [module_A]) = Some compiled /\
     item_mi (fresh_linfo init_method (sig init_method)) ∈ compiled) /\
  ((is_Some (ccallable h_method) /\
    jl_is_dispatch_tupletype (sig h_method) = false) /\
   (forall x,
      item_mi x ∈ precompile_enq_all_specializations__ fresh_linfo h_method [] <->
      item_mi x ∈ [] \/
      (Some x ∈ specializations h_method /\
       exists c, c ∈ cache x /\ entry_selected c)) /\
   exists compiled,
     jl_precompile_worklist fresh_linfo (fun _ => h_method)
       dispatch_tuple_is_compileable (fun _ => None)
       (fun _ => [{| defs := [h_method] |}]) (Some [module_A]) = Some compiled /\
     item_svec Int64 (closed_tuple [Integer]) ∈ compiled).
Proof.
  split.
  - split; [split; reflexivity|].
    destruct (C3_forced_specializations fresh_linfo (fun _ => init_method)
                dispatch_tuple_is_compileable (fun _ => None)
                (fun _ => [{| defs := [init_method] |}])
                [module_A] module_A {| defs := [init_method] |} init_method)
      as (Hforced & _ & _);
      [left | left | left | left; reflexivity |].
    destruct (Hforced eq_refl) as [Hfound Hkept].
    split; [exact Hfound|]. apply Hkept. right. reflexivity.
  - split; [split; [eexists|]; reflexivity|].
    destruct (C3_forced_specializations fresh_linfo (fun _ => h_method)
                dispatch_tuple_is_compileable (fun _ => None)
                (fun _ => [{| defs := [h_method] |}])
                [module_A] module_A {| defs := [h_method] |} h_method)
      as (_ & Hscan & Hrec);
      [left | left | left | right; eexists; reflexivity |].
    split; [intros x; exact (Hscan eq_refl [] x)|].
    exact (Hrec Int64 (closed_tuple [Integer]) eq_refl).
Defined.

(** C6 fails as stated: the full sweep over a table holding [f(::Int64)]
    hints the signature and pushes no fallback, although the method has
    source and an unspecialized instance could be made; the array handed to
    the code generator holds the specialization the hint compiled and no
    unspecialized instance. *)
Lemma C6_counterexample :
  allmeths [{| defs := [f_method] |}] = [f_method] /\
  fresh_unspecialized f_method =
    Some {| mi_addr := 1; specTypes := sig f_method; cache := [] |} /\
  jl_compile_all_defs instantiate_closed closed_tuple_flags
    dispatch_tuple_is_compileable fresh_unspecialized
    [{| defs := [f_method] |}] 1 [] = Some ([sig f_method], []) /\
  jl_precompile instantiate_closed closed_tuple_flags fresh_linfo
    (fun _ => f_method_hinted) dispatch_tuple_is_compileable (fun _ => None)
    fresh_unspecialized [{| defs := [f_method] |}]
    (fun _ => [{| defs := [f_method_hinted] |}]) 1 true
  = Some ([sig f_method], [item_mi mi_f_compiled]).
Proof. vm_compute. done. Qed.

Lemma C4_witness :
  embedded_files one_file sample_udeps = [(path_a, [106; 108]%Z)] /\
  read_srctext (buf (write_srctext one_file sample_stream (Some sample_udeps) 8)) 24
  = Some ([(path_a, [106; 108]%Z)], 44).
Proof.
  split; [reflexivity|].
  destruct (C4_srctext_roundtrip one_file sample_stream sample_udeps 8)
    as (_ & _ & _ & H & _).
  - vm_compute. lia.
  - repeat constructor.
  - exact H.
Defined.

Lemma checksum_field_with_udeps_witness :
  slice 16 8 (buf (patch_header one_file byte_sum sample_stream
                     (Some sample_udeps) 8 0 16)) = [1; 2; 3; 4; 5; 6; 7; 8]%Z /\
  read_uint64 (buf (patch_header one_file byte_sum sample_stream
                      (Some sample_udeps) 8 0 16)) 0
  = Z.lor 36 (Z.shiftl 0xfafbfcfd 32) /\
  Z.land (read_uint64 (buf (patch_header one_file byte_sum sample_stream
                              (Some sample_udeps) 8 0 16)) 0) (2 ^ 32 - 1) = 36%Z.
Proof.
  destruct (checksum_field_with_udeps one_file byte_sum sample_stream
              sample_udeps 8 0 16)
    as (H1 & H2 & H3);
    [vm_compute; lia | vm_compute; reflexivity | left; vm_compute; lia
    | vm_compute; lia | vm_compute; lia | vm_compute; lia
    | intros crc b1 b2 len Hb; unfold byte_sum; rewrite Hb; reflexivity | ].
  split; [exact H1|]. split; [exact H2|exact H3].
Defined.

(** C5 (defect in the code). [jl_write_compiler_output] leaves the stream
    just behind the field at [srctextpos] when it calls [write_srctext]. On
    a stream with the checksum field at 0, the source-text field at 8 and
    the data bytes 1 to 8 at 16 to 23, the checksum field gets the checksum
    of the bytes [[16, 24)], 36 for the byte sum. With a dependency list
    the field that was given the data end 24 ends up holding 16, and the
    checksum of the stored range [[16, 16)] is 0. With [udeps == NULL] the
    end marker is written at 16, over checksummed bytes, which then sum to
    26. *)
Lemma C5_stored_range_mismatch :
  let s1 := patch_header one_file byte_sum sample_stream (Some sample_udeps) 8 0 16 in
  let s0 := patch_header one_file byte_sum sample_stream None 8 0 16 in
  (bpos sample_stream = 24 /\
   read_uint64 (buf s1) 0 = Z.lor 36 (Z.shiftl 0xfafbfcfd 32) /\
   read_uint64 (buf s1) 8 = 16%Z /\
   byte_sum 0 (drop 16 (buf s1)) (16 - 16) = 0%Z) /\
  (read_uint64 (buf s0) 0 = Z.lor 36 (Z.shiftl 0xfafbfcfd 32) /\
   slice 16 8 (buf s0) = [0; 0; 0; 0; 5; 6; 7; 8]%Z /\
   byte_sum 0 (drop 16 (buf s0)) 8 = 26%Z).
Proof. vm_compute. done. Qed.


(** [Tuple{DataType, Union{Int64,Float64}}] has no type variable: its two
    combinations are built and passed on, and nothing is hinted. *)
Lemma compile_all_union_without_tvars_witness :
  _compile_all_union instantiate_closed closed_tuple_flags 2
    (closed_tuple [DataType; U2])
  = Some [(closed_tuple [DataType; Int64], []);
          (closed_tuple [DataType; Float64], [])] /\
  hinted [(closed_tuple [DataType; Int64], []);
          (closed_tuple [DataType; Float64], [])] = [].
Proof.
  split; [reflexivity|].
  apply (compile_all_union_without_tvars instantiate_closed closed_tuple_flags 2
           (closed_tuple [DataType; U2])); reflexivity.
Defined.

(** On the sample stream the field at offset 8 ends up holding 16, not the
    end of the data, 24. *)
Lemma patch_header_srctext_field_witness :
  read_uint64 (buf (patch_header one_file byte_sum sample_stream
                      (Some sample_udeps) 8 0 16)) 8 = 16%Z.
Proof.
  rewrite (patch_header_srctext_field one_file byte_sum sample_stream
             sample_udeps 8 0 16); [reflexivity | | | ]; vm_compute; lia.
Defined.

(** *** The further properties at sample inputs *)

(** Two type variables, the second bounded by a union of two alternatives:
    three passes. *)
Lemma tvar_union_enumerates_bindings_witness :
  _compile_all_tvar_union instantiate_closed 3 sig_union_bound =
  Some (map (fun env => (env, NotConcrete (closed_tuple [DataType; S_union])))
            [ [T; jl_bottom_type; S_union; jl_bottom_type];
              [T; T; S_union; Int64];
              [T; T; S_union; jl_tvar "S" jl_bottom_type Integer] ]).
Proof.
  apply (tvar_union_enumerates_bindings instantiate_closed 3 sig_union_bound);
    vm_compute; lia.
Defined.

Lemma compile_all_defs_hints_sound_witness :
  (forall m, m ∈ allmeths [{| defs := [g_method] |}] <->
             source m = true /\
             exists mt, mt ∈ [{| defs := [g_method] |}] /\ m ∈ defs mt) /\
  exists per_method,
    [closed_tuple [DataType; Int64]; closed_tuple [DataType; Float64]]
      = concat per_method /\
    Forall2 (fun m hs =>
               if dispatch_tuple_is_compileable (sig m) m then hs = [sig m]
               else exists calls,
                      _compile_all_union instantiate_closed closed_tuple_flags 2
                        (sig m) = Some calls /\
                      hs = hinted calls /\
                      forall s, s ∈ hs ->
                        jl_has_concrete_subtype s = true /\
                        jl_is_concrete_type s = true /\
                        exists methsig log env,
                          (methsig, log) ∈ calls /\ (env, Hinted s) ∈ log /\
                          instantiate_closed (jl_unwrap_unionall methsig) env
                            = Some s)
            (allmeths [{| defs := [g_method] |}]) per_method.
Proof.
  apply (compile_all_defs_hints_sound instantiate_closed closed_tuple_flags
           dispatch_tuple_is_compileable fresh_unspecialized
           [{| defs := [g_method] |}] 2 []
           [closed_tuple [DataType; Int64]; closed_tuple [DataType; Float64]]
           [item_mi {| mi_addr := 1; specTypes := sig g_method; cache := [] |}]).
  reflexivity.
Defined.

Lemma sweep_fallback_compiled_witness :
  exists hints compiled,
    jl_precompile instantiate_closed closed_tuple_flags fresh_linfo
      (fun _ => g_method) dispatch_tuple_is_compileable (fun _ => None)
      fresh_unspecialized [{| defs := [g_method] |}]
      (fun _ => [{| defs := [g_method] |}])
      (sweep_fuel [{| defs := [g_method] |}] + 0) true = Some (hints, compiled) /\
    item_mi {| mi_addr := 1; specTypes := sig g_method; cache := [] |} ∈ compiled.
Proof.
  apply (sweep_fallback_compiled instantiate_closed closed_tuple_flags fresh_linfo
           (fun _ => g_method) dispatch_tuple_is_compileable (fun _ => None)
           fresh_unspecialized [{| defs := [g_method] |}]
           (fun _ => [{| defs := [g_method] |}]) 0 g_method
           {| mi_addr := 1; specTypes := sig g_method; cache := [] |});
    [left | reflexivity | reflexivity | reflexivity].
Defined.

(** One union-typed parameter of two alternatives and one type variable
    bounded by a union of two: two calls of three instantiations each. *)
Lemma enumerator_attempt_count_witness :
  exists calls,
    _compile_all_union instantiate_closed closed_tuple_flags 5 sig_union_and_bound
      = Some calls /\
    length calls = 2 /\
    Forall (fun c => length c.2 = 3) calls.
Proof.
  apply (enumerator_attempt_count instantiate_closed closed_tuple_flags 5
           sig_union_and_bound); [reflexivity | vm_compute; lia].
Defined.

Lemma write_srctext_null_witness :
  bpos (write_srctext one_file sample_stream None 8) = 28 /\
  (forall i, i < 24 ->
     buf (write_srctext one_file sample_stream None 8) !! i = buf sample_stream !! i) /\
  (8 + 8 <= 24 ->
   read_uint64 (buf (write_srctext one_file sample_stream None 8)) 8 =
   read_uint64 (buf sample_stream) 8) /\
  read_srctext (buf (write_srctext one_file sample_stream None 8)) 24 = Some ([], 28).
Proof.
  apply (write_srctext_null one_file sample_stream 8). vm_compute. lia.
Defined.

Lemma patch_header_frame_witness :
  (forall i, i < 24 -> ~ (0 <= i < 0 + 8) -> ~ (8 <= i < 8 + 8) ->
     buf (patch_header one_file byte_sum sample_stream (Some sample_udeps) 8 0 16) !! i
     = buf sample_stream !! i) /\
  drop 24 (buf (patch_header one_file byte_sum sample_stream (Some sample_udeps) 8 0 16))
    = srctext_block [(path_a, [106; 108]%Z)] /\
  length (buf (patch_header one_file byte_sum sample_stream (Some sample_udeps) 8 0 16))
    = 24 + 20 /\
  bpos (patch_header one_file byte_sum sample_stream (Some sample_udeps) 8 0 16)
    = length (buf (patch_header one_file byte_sum sample_stream
                     (Some sample_udeps) 8 0 16)).
Proof.
  apply (patch_header_frame one_file byte_sum sample_stream sample_udeps 8 0 16);
    vm_compute; lia.
Defined.

(** The module [A] has no [__init__] and one [@ccallable] method. *)
Lemma dropped_module_still_selected_witness :
  let r := rebuild_init_order closed_tuple_flags (fun _ _ => None)
             (fun _ => JL_OPTIONS_COMPILE_ON) (fun t => t)
             incremental_options state_after_A in
  (exists order, jl_module_init_order r.1 = Some order /\ module_A ∉ order) /\
  r.2 = Some [module_A] /\
  select_native_code instantiate_closed closed_tuple_flags fresh_linfo
    (fun _ => h_method) dispatch_tuple_is_compileable (fun _ => None)
    fresh_unspecialized [] (fun _ => [])
    (fun _ => [{| defs := [h_method] |}])
    incremental_options JL_OPTIONS_COMPILE_ON 0 [module_A] =
  Some ([], Some (jl_precompile_ (fun _ => h_method) dispatch_tuple_is_compileable
                    (fun _ => None)
                    (worklist_found fresh_linfo
                       (fun _ => [{| defs := [h_method] |}]) [module_A]))) /\
  item_svec Int64 (closed_tuple [Integer])
    ∈ worklist_found fresh_linfo (fun _ => [{| defs := [h_method] |}]) [module_A].
Proof.
  apply (dropped_module_still_selected instantiate_closed closed_tuple_flags
           fresh_linfo (fun _ => h_method) dispatch_tuple_is_compileable
           (fun _ => None) fresh_unspecialized [] (fun _ => [])
           (fun _ => [{| defs := [h_method] |}]) (fun _ _ => None)
           (fun _ => JL_OPTIONS_COMPILE_ON) (fun t => t)
           incremental_options JL_OPTIONS_COMPILE_ON 0 state_after_A
           [module_A] module_A {| defs := [h_method] |} h_method
           (item_svec Int64 (closed_tuple [Integer])));
    [reflexivity | reflexivity | reflexivity | left | reflexivity | left | left |].
  right. right. exists Int64, (closed_tuple [Integer]). split; reflexivity.
Defined.

Lemma jl_precompile_ccallable_witness :
  exists compiled,
    jl_precompile instantiate_closed closed_tuple_flags fresh_linfo
      (fun _ => h_method) dispatch_tuple_is_compileable (fun _ => None)
      fresh_unspecialized [] (fun _ => [{| defs := [h_method] |}]) 0 false
    = Some ([], compiled) /\
    item_svec Int64 (closed_tuple [Integer]) ∈ compiled.
Proof.
  eexists. split; [reflexivity|].
  apply (jl_precompile_ccallable instantiate_closed closed_tuple_flags fresh_linfo
           (fun _ => h_method) dispatch_tuple_is_compileable (fun _ => None)
           fresh_unspecialized [] (fun _ => [{| defs := [h_method] |}]) 0 false
           [] _ Int64 (closed_tuple [Integer]) eq_refl).
  exists {| defs := [h_method] |}, h_method.
  split; [left|]. split; [left|reflexivity].
Defined.

Lemma patch_header_independent_of_udeps_witness :
  take 24 (buf (patch_header one_file byte_sum sample_stream
                  (Some sample_udeps) 8 0 16)) =
  take 24 (buf (patch_header one_file byte_sum sample_stream (Some []) 8 0 16)).
Proof.
  apply (patch_header_independent_of_udeps one_file byte_sum sample_stream
           sample_udeps [] 8 0 16); vm_compute; lia.
Defined.

End Precompile.
